(** * Sample-Task: the two notebooks, embedded and verified

    - [Bivariate]: Question1/Documentation_bivariateNormalDistribution.ipynb,
      the density formula of the notebook and the evaluation grid of its
      plotting loop.
    - [MLP]: Question3/Documentation_multiLayerPerceptron.ipynb, the
      from-scratch multilayer perceptron: initialisation, forward pass,
      one-hot encoding, accuracy and the training loop.

    Floating-point arrays are read in exact arithmetic: a float is a real
    number of [R], a one-dimensional array a [list R]. *)

From Stdlib Require Import String Ascii DecimalString.
From Stdlib Require Import Reals Lra Lia ZArith Bool List Permutation.
Import ListNotations.

Local Open Scope R_scope.

(** An entry of a mapped list, read at an index within bounds. *)
Lemma nth_map_lt {A B : Type} (f : A -> B) (l : list A) (d : B) (d' : A)
      (j : nat) :
  (j < length l)%nat -> nth j (map f l) d = f (nth j l d').
Proof.
  revert j. induction l as [|a l IH]; simpl; intros [|j] H; try lia; auto.
  apply IH. lia.
Qed.

(* ================================================================== *)
(** * Question 1: the bivariate normal density and its grid *)
(* ================================================================== *)

Module Bivariate.

(** A 2x2 array such as [np.array([[1, val], [val, 1]])]. *)
Record mat2 : Type := Mat2 { m00 : R; m01 : R; m10 : R; m11 : R }.

(** A point of the plane, [[x1, x2]]. *)
Definition vec2 : Type := (R * R)%type.

(** [|Sigma|], the determinant. *)
Definition det (S : mat2) : R := m00 S * m11 S - m01 S * m10 S.

(** [Sigma^{-1}], by the adjugate formula. *)
Definition inv (S : mat2) : mat2 :=
  Mat2 (m11 S / det S) (- m01 S / det S) (- m10 S / det S) (m00 S / det S).

Definition vsub (x y : vec2) : vec2 := (fst x - fst y, snd x - snd y).

(** [d^T A d]. *)
Definition quad_form (A : mat2) (d : vec2) : R :=
  fst d * (m00 A * fst d + m01 A * snd d)
  + snd d * (m10 A * fst d + m11 A * snd d).

(** The density as the notebook defines it (first markdown cell):
    [f_X(x) = 1 / sqrt(2 pi |Sigma|) * exp(-(x-mu)^T Sigma^{-1} (x-mu) / 2)]. *)
Definition f_X (mu : vec2) (Sigma : mat2) (x : vec2) : R :=
  1 / sqrt (2 * PI * det Sigma)
  * exp (- quad_form (inv Sigma) (vsub x mu) / 2).

(** Modelled from the spec: [distr], whose [pdf] the plotting loop
    calls ([distr.pdf([X[i,j], Y[i,j]])]), is never bound in the
    notebook.  The specification (4.1, Density Evaluator) gives what it
    computes at a point, for a mean vector and an invertible covariance
    matrix: the exponential of the quadratic form
    [-(x-mu)^T Sigma^{-1} (x-mu) / 2], normalised by
    [1 / sqrt ((2 pi)^2 |Sigma|)]. *)
Definition distr_pdf (mu : vec2) (Sigma : mat2) (x : vec2) : R :=
  1 / sqrt ((2 * PI) ^ 2 * det Sigma)
  * exp (- quad_form (inv Sigma) (vsub x mu) / 2).

(** A covariance matrix: symmetric and positive semi-definite. *)
Definition covariance_matrix (S : mat2) : Prop :=
  m01 S = m10 S /\ 0 <= m00 S /\ 0 <= m11 S /\ 0 <= det S.

(** The univariate standard normal density. *)
Definition phi (x : R) : R := 1 / sqrt (2 * PI) * exp (- (x * x) / 2).

(** [cov_val = [-0.8, 0, 0.8]]. *)
Definition cov_val : list R := [- (8 / 10); 0; 8 / 10].

(** [mean = np.array([0,0])]. *)
Definition mean : vec2 := (0, 0).

(** [cov = np.array([[1, val], [val, 1]])]. *)
Definition cov (val : R) : mat2 := Mat2 1 val val 1.

(** [np.linspace(start, stop, num)]: [num] evenly spaced samples, the
    step being [(stop - start) / (num - 1)]. *)
Definition linspace (start stop : R) (num : nat) : list R :=
  map (fun i => start + INR i * ((stop - start) / INR (num - 1)))
      (seq 0 num).

(** [np.meshgrid(x, y)]: two arrays of shape [(len y, len x)], with
    [X[i][j] = x[j]] and [Y[i][j] = y[i]]. *)
Definition meshgrid (x y : list R) : list (list R) * list (list R) :=
  (map (fun _ => x) y, map (fun yi => map (fun _ => yi) x) y).

(** The grid of one iteration of the plotting loop:
    [sigma_1, sigma_2 = cov[0,0], cov[1,1]], then the two [linspace]s
    and the [meshgrid]. *)
Definition grid (c : mat2) : list (list R) * list (list R) :=
  let sigma_1 := m00 c in
  let sigma_2 := m11 c in
  let x := linspace (-3 * sigma_1) (3 * sigma_1) 100 in
  let y := linspace (-3 * sigma_2) (3 * sigma_2) 100 in
  meshgrid x y.

(** ** Facts on the density *)

Lemma quad_form_zero (A : mat2) : quad_form A (0, 0) = 0.
Proof. unfold quad_form; simpl; ring. Qed.

Lemma vsub_diag (x : vec2) : vsub x x = (0, 0).
Proof. unfold vsub; f_equal; ring. Qed.

Lemma two_pi_gt_1 : 1 < 2 * PI.
Proof. pose proof PI2_1; lra. Qed.

Lemma sqrt_two_pi_lt : sqrt (2 * PI) < 2 * PI.
Proof.
  pose proof two_pi_gt_1 as H.
  rewrite <- (sqrt_square (2 * PI)) at 2 by lra.
  apply sqrt_lt_1; nra.
Qed.

(** At the mean the notebook's formula leaves its own normaliser. *)
Lemma f_X_at_mean (mu : vec2) (Sigma : mat2) :
  f_X mu Sigma mu = 1 / sqrt (2 * PI * det Sigma).
Proof.
  unfold f_X. rewrite vsub_diag, quad_form_zero.
  replace (- 0 / 2) with 0 by lra. rewrite exp_0. ring.
Qed.

(** At the mean the quadratic form vanishes and the density is its
    normalising constant. *)
Lemma distr_pdf_mean_value (mu : vec2) (Sigma : mat2) :
  0 < det Sigma ->
  distr_pdf mu Sigma mu = 1 / (2 * PI * sqrt (det Sigma)).
Proof.
  intros Hd. unfold distr_pdf. rewrite vsub_diag, quad_form_zero.
  replace (- 0 / 2) with 0 by lra. rewrite exp_0.
  pose proof two_pi_gt_1.
  rewrite sqrt_mult by nra.
  rewrite <- Rsqr_pow2, sqrt_Rsqr by lra. ring.
Qed.

Lemma det_cov_0 : det (cov 0) = 1.
Proof. unfold det, cov; simpl; ring. Qed.

Lemma quad_form_inv_cov_0 (d : vec2) :
  quad_form (inv (cov 0)) d = fst d * fst d + snd d * snd d.
Proof.
  unfold quad_form, inv. rewrite det_cov_0. simpl. field.
Qed.

Lemma f_X_cov_0 (x1 x2 : R) :
  f_X mean (cov 0) (x1, x2)
  = 1 / sqrt (2 * PI) * exp (- (x1 * x1 + x2 * x2) / 2).
Proof.
  unfold f_X. rewrite quad_form_inv_cov_0, det_cov_0. simpl.
  replace (2 * PI * 1) with (2 * PI) by ring.
  do 2 f_equal. unfold Rminus. f_equal. f_equal. ring.
Qed.

Lemma phi_product (x1 x2 : R) :
  phi x1 * phi x2 = 1 / (2 * PI) * exp (- (x1 * x1 + x2 * x2) / 2).
Proof.
  unfold phi. pose proof two_pi_gt_1 as H.
  assert (Hs : sqrt (2 * PI) * sqrt (2 * PI) = 2 * PI)
    by (apply sqrt_sqrt; lra).
  assert (Hp : 0 < sqrt (2 * PI)) by (apply sqrt_lt_R0; lra).
  replace (- (x1 * x1 + x2 * x2) / 2)
    with (- (x1 * x1) / 2 + - (x2 * x2) / 2) by lra.
  rewrite exp_plus. rewrite <- Hs at 3. field. lra.
Qed.

(** The notebook's normaliser is never the bivariate one: for a
    covariance matrix of positive determinant the value of [f_X] at the
    mean differs from [1 / (2 pi sqrt |Sigma|)]. *)
Lemma f_X_at_mean_differs (mu : vec2) (Sigma : mat2) :
  0 < det Sigma ->
  f_X mu Sigma mu <> 1 / (2 * PI * sqrt (det Sigma)).
Proof.
  intros Hd. rewrite f_X_at_mean.
  pose proof two_pi_gt_1 as H. pose proof sqrt_two_pi_lt as Hlt.
  assert (Hs : 0 < sqrt (det Sigma)) by (apply sqrt_lt_R0; lra).
  assert (Hp : 0 < sqrt (2 * PI)) by (apply sqrt_lt_R0; lra).
  rewrite sqrt_mult by lra.
  intros E.
  assert (E' : sqrt (2 * PI) * sqrt (det Sigma)
               = 2 * PI * sqrt (det Sigma)).
  { apply Rinv_eq_reg. unfold Rdiv in E. rewrite !Rmult_1_l in E. exact E. }
  nra.
Qed.

(** ** Facts on the grid *)

Lemma linspace_length (a b : R) (n : nat) :
  length (linspace a b n) = n.
Proof. unfold linspace. now rewrite length_map, length_seq. Qed.

Lemma linspace_nth (a b : R) (n j : nat) :
  (j < n)%nat ->
  nth j (linspace a b n) 0 = a + INR j * ((b - a) / INR (n - 1)).
Proof.
  intros Hj. unfold linspace.
  rewrite (nth_map_lt _ _ _ 0%nat) by now rewrite length_seq.
  rewrite seq_nth by assumption. reflexivity.
Qed.

Lemma linspace_first (a b : R) (n : nat) :
  (0 < n)%nat -> nth 0 (linspace a b n) 0 = a.
Proof. intros Hn. rewrite linspace_nth by assumption. simpl. ring. Qed.

Lemma linspace_last (a b : R) (n : nat) :
  (1 < n)%nat -> nth (n - 1) (linspace a b n) 0 = b.
Proof.
  intros Hn. rewrite linspace_nth by lia.
  assert (H : INR (n - 1) <> 0) by (apply not_0_INR; lia).
  field. exact H.
Qed.

Lemma linspace_bounds (a b : R) (n j : nat) :
  a <= b -> (1 < n)%nat -> (j < n)%nat ->
  a <= nth j (linspace a b n) 0 <= b.
Proof.
  intros Hab Hn Hj. rewrite linspace_nth by assumption.
  assert (Hp : 0 < INR (n - 1)) by (apply lt_0_INR; lia).
  assert (Hj0 : 0 <= INR j) by apply pos_INR.
  assert (Hjn : INR j <= INR (n - 1)) by (apply le_INR; lia).
  assert (Hq : 0 <= (b - a) / INR (n - 1)).
  { apply Rmult_le_pos; [lra | left; now apply Rinv_0_lt_compat]. }
  split.
  - assert (0 <= INR j * ((b - a) / INR (n - 1)))
      by now apply Rmult_le_pos.
    lra.
  - assert (INR j * ((b - a) / INR (n - 1))
            <= INR (n - 1) * ((b - a) / INR (n - 1)))
      by now apply Rmult_le_compat_r.
    replace (INR (n - 1) * ((b - a) / INR (n - 1))) with (b - a) in H
      by (field; lra).
    lra.
Qed.

Lemma meshgrid_X_nth (x y : list R) (i : nat) :
  (i < length y)%nat -> nth i (fst (meshgrid x y)) [] = x.
Proof.
  intros Hi. unfold meshgrid; simpl.
  now rewrite (nth_map_lt _ _ _ 0) by assumption.
Qed.

Lemma meshgrid_Y_nth (x y : list R) (i j : nat) :
  (i < length y)%nat -> (j < length x)%nat ->
  nth j (nth i (snd (meshgrid x y)) []) 0 = nth i y 0.
Proof.
  intros Hi Hj. unfold meshgrid; simpl.
  rewrite (nth_map_lt _ _ _ 0) by assumption.
  now rewrite (nth_map_lt _ _ _ 0) by assumption.
Qed.

Lemma meshgrid_shape (x y : list R) :
  length (fst (meshgrid x y)) = length y
  /\ length (snd (meshgrid x y)) = length y
  /\ Forall (fun r => length r = length x) (fst (meshgrid x y))
  /\ Forall (fun r => length r = length x) (snd (meshgrid x y)).
Proof.
  unfold meshgrid; simpl. rewrite !length_map. repeat split.
  - apply Forall_forall. intros r Hr. apply in_map_iff in Hr.
    destruct Hr as (? & <- & _). reflexivity.
  - apply Forall_forall. intros r Hr. apply in_map_iff in Hr.
    destruct Hr as (? & <- & _). now rewrite length_map.
Qed.

(** Every covariance matrix of the loop has a unit diagonal. *)
Lemma cov_diag (val : R) : m00 (cov val) = 1 /\ m11 (cov val) = 1.
Proof. split; reflexivity. Qed.

(** ** The claims on the density and the grid *)

(** The formula written in the first markdown cell has the normaliser
    [1 / sqrt (2 pi |Sigma|)]: for the identity covariance it yields
    [1 / sqrt (2 pi)] at the mean, not [1 / (2 pi)]. *)
Lemma f_X_mean_identity_normaliser :
  f_X mean (cov 0) mean = 1 / sqrt (2 * PI)
  /\ 1 / (2 * PI * sqrt (det (cov 0))) = 1 / (2 * PI)
  /\ f_X mean (cov 0) mean <> 1 / (2 * PI * sqrt (det (cov 0))).
Proof.
  split; [|split].
  - rewrite f_X_at_mean, det_cov_0. f_equal. f_equal. ring.
  - rewrite det_cov_0, sqrt_1. f_equal. ring.
  - apply f_X_at_mean_differs. rewrite det_cov_0. lra.
Qed.

(** For the same reason the written formula, at the identity
    covariance, is not the product of the two standard normal
    densities: the two are [1 / sqrt (2 pi) * exp (-(x1^2 + x2^2) / 2)]
    and [1 / (2 pi) * exp (-(x1^2 + x2^2) / 2)]. *)
Lemma f_X_identity_not_product :
  (forall x1 x2,
      f_X mean (cov 0) (x1, x2)
      = 1 / sqrt (2 * PI) * exp (- (x1 * x1 + x2 * x2) / 2)
      /\ phi x1 * phi x2
         = 1 / (2 * PI) * exp (- (x1 * x1 + x2 * x2) / 2)
      /\ f_X mean (cov 0) (x1, x2) <> phi x1 * phi x2)
  /\ f_X mean (cov 0) (0, 0) = 1 / sqrt (2 * PI)
  /\ phi 0 * phi 0 = 1 / (2 * PI).
Proof.
  pose proof two_pi_gt_1 as H. pose proof sqrt_two_pi_lt as Hlt.
  assert (Hp : 0 < sqrt (2 * PI)) by (apply sqrt_lt_R0; lra).
  assert (Hne : 1 / sqrt (2 * PI) <> 1 / (2 * PI)).
  { intros E. unfold Rdiv in E. rewrite !Rmult_1_l in E.
    apply Rinv_eq_reg in E. lra. }
  split; [|split].
  - intros x1 x2. rewrite f_X_cov_0, phi_product.
    repeat split; try reflexivity.
    intros E. apply Rmult_eq_reg_r in E; [contradiction|].
    pose proof (exp_pos (- (x1 * x1 + x2 * x2) / 2)). lra.
  - rewrite f_X_cov_0. replace (- (0 * 0 + 0 * 0) / 2) with 0 by lra.
    rewrite exp_0. ring.
  - rewrite phi_product. replace (- (0 * 0 + 0 * 0) / 2) with 0 by lra.
    rewrite exp_0. ring.
Qed.

Lemma covariance_det_pos (S : mat2) :
  covariance_matrix S -> det S <> 0 -> 0 < det S.
Proof. intros (_ & _ & _ & H) Hn. lra. Qed.

(** C2. For every non-singular covariance matrix [Sigma], the density
    at the mean is exactly [1 / (2 pi sqrt |Sigma|)]: the exponential
    of the quadratic form is [exp 0 = 1] there and only the normalising
    constant is left. *)
Theorem distr_pdf_at_mean (mu : vec2) (Sigma : mat2) :
  covariance_matrix Sigma -> det Sigma <> 0 ->
  distr_pdf mu Sigma mu = 1 / (2 * PI * sqrt (det Sigma))
  /\ quad_form (inv Sigma) (vsub mu mu) = 0
  /\ exp (- quad_form (inv Sigma) (vsub mu mu) / 2) = 1.
Proof.
  intros Hc Hn. split; [|split].
  - apply distr_pdf_mean_value. now apply covariance_det_pos.
  - now rewrite vsub_diag, quad_form_zero.
  - rewrite vsub_diag, quad_form_zero.
    replace (- 0 / 2) with 0 by lra. apply exp_0.
Qed.

(** The covariance matrix of the iteration [val = 0.8]. *)
Lemma distr_pdf_at_mean_witness :
  distr_pdf mean (cov (8 / 10)) mean
  = 1 / (2 * PI * sqrt (det (cov (8 / 10)))).
Proof.
  apply (distr_pdf_at_mean mean (cov (8 / 10))).
  - unfold covariance_matrix, det, cov; simpl. repeat split; lra.
  - unfold det, cov; simpl. lra.
Defined.

(** C3. With zero off-diagonal covariance, [cov = [[1, 0], [0, 1]]] in
    the iteration [val = 0], the bivariate density at every point
    [(x1, x2)] is the product of the standard normal densities at [x1]
    and at [x2]. *)
Theorem distr_pdf_factorises (x1 x2 : R) :
  distr_pdf mean (cov 0) (x1, x2) = phi x1 * phi x2.
Proof.
  rewrite phi_product. unfold distr_pdf.
  rewrite quad_form_inv_cov_0, det_cov_0. simpl.
  pose proof two_pi_gt_1 as H.
  replace ((2 * PI) * ((2 * PI) * 1) * 1) with (Rsqr (2 * PI))
    by (unfold Rsqr; ring).
  rewrite sqrt_Rsqr by lra.
  f_equal. f_equal. unfold Rminus, Rdiv. f_equal. f_equal. ring.
Qed.

(** C8. For each covariance matrix of the plotting loop the grid is the
    100 x 100 mesh over [-3 sd_1, 3 sd_1] x [-3 sd_2, 3 sd_2], where
    [sd_i = sqrt (cov[i,i])]: both arrays have 100 rows of 100 entries,
    [X[i][j]] and [Y[i][j]] are the [j]-th and [i]-th of 100 evenly
    spaced samples, the first one is [-3 sd], the last one [3 sd], and
    every sample lies between the two. *)
Theorem grid_spans_three_sd (val : R) :
  In val cov_val ->
  let c := cov val in
  let sd_1 := sqrt (m00 c) in
  let sd_2 := sqrt (m11 c) in
  let X := fst (grid c) in
  let Y := snd (grid c) in
  grid c = meshgrid (linspace (-3 * sd_1) (3 * sd_1) 100)
                    (linspace (-3 * sd_2) (3 * sd_2) 100)
  /\ length X = 100%nat /\ length Y = 100%nat
  /\ Forall (fun r => length r = 100%nat) X
  /\ Forall (fun r => length r = 100%nat) Y
  /\ (forall i j, (i < 100)%nat -> (j < 100)%nat ->
        nth j (nth i X []) 0 = -3 * sd_1 + INR j * (6 * sd_1 / 99)
        /\ nth j (nth i Y []) 0 = -3 * sd_2 + INR i * (6 * sd_2 / 99)
        /\ -3 * sd_1 <= nth j (nth i X []) 0 <= 3 * sd_1
        /\ -3 * sd_2 <= nth j (nth i Y []) 0 <= 3 * sd_2)
  /\ (forall i, (i < 100)%nat ->
        nth 0 (nth i X []) 0 = -3 * sd_1
        /\ nth 99 (nth i X []) 0 = 3 * sd_1)
  /\ (forall j, (j < 100)%nat ->
        nth j (nth 0 Y []) 0 = -3 * sd_2
        /\ nth j (nth 99 Y []) 0 = 3 * sd_2).
Proof.
  intros _ c sd_1 sd_2 X Y.
  assert (E1 : sd_1 = 1) by (subst sd_1 c; simpl; apply sqrt_1).
  assert (E2 : sd_2 = 1) by (subst sd_2 c; simpl; apply sqrt_1).
  assert (EG : grid c = meshgrid (linspace (-3 * sd_1) (3 * sd_1) 100)
                                 (linspace (-3 * sd_2) (3 * sd_2) 100)).
  { rewrite E1, E2. unfold grid. subst c. simpl m00. simpl m11. reflexivity. }
  subst X Y. rewrite EG.
  set (x := linspace (-3 * sd_1) (3 * sd_1) 100).
  set (y := linspace (-3 * sd_2) (3 * sd_2) 100).
  assert (Lx : length x = 100%nat) by apply linspace_length.
  assert (Ly : length y = 100%nat) by apply linspace_length.
  destruct (meshgrid_shape x y) as (S1 & S2 & S3 & S4).
  rewrite Lx in S3, S4. rewrite Ly in S1, S2.
  assert (P1 : 0 <= sd_1) by lra. assert (P2 : 0 <= sd_2) by lra.
  assert (NX : forall i j, (i < 100)%nat -> (j < 100)%nat ->
             nth j (nth i (fst (meshgrid x y)) []) 0 = nth j x 0).
  { intros i j Hi Hj. rewrite meshgrid_X_nth by lia. reflexivity. }
  assert (NY : forall i j, (i < 100)%nat -> (j < 100)%nat ->
             nth j (nth i (snd (meshgrid x y)) []) 0 = nth i y 0).
  { intros i j Hi Hj. apply meshgrid_Y_nth; lia. }
  assert (I99 : INR (100 - 1) = 99).
  { change (100 - 1)%nat with 99%nat. rewrite INR_IZR_INZ. reflexivity. }
  repeat split; try assumption.
  - rewrite NX by assumption. subst x. rewrite linspace_nth by assumption.
    rewrite I99. field.
  - rewrite NY by assumption. subst y. rewrite linspace_nth by assumption.
    rewrite I99. field.
  - rewrite NX by assumption. subst x.
    apply (linspace_bounds (-3 * sd_1) (3 * sd_1) 100 j); [lra | lia | lia].
  - rewrite NX by assumption. subst x.
    apply (linspace_bounds (-3 * sd_1) (3 * sd_1) 100 j); [lra | lia | lia].
  - rewrite NY by assumption. subst y.
    apply (linspace_bounds (-3 * sd_2) (3 * sd_2) 100 i); [lra | lia | lia].
  - rewrite NY by assumption. subst y.
    apply (linspace_bounds (-3 * sd_2) (3 * sd_2) 100 i); [lra | lia | lia].
  - rewrite NX by lia. subst x. apply linspace_first. lia.
  - rewrite NX by lia. subst x.
    apply (linspace_last (-3 * sd_1) (3 * sd_1) 100). lia.
  - rewrite NY by lia. subst y. apply linspace_first. lia.
  - rewrite NY by lia. subst y.
    apply (linspace_last (-3 * sd_2) (3 * sd_2) 100). lia.
Qed.

(** The grid of the iteration [val = 0.8]. *)
Lemma grid_spans_three_sd_witness :
  In (8 / 10) cov_val
  /\ length (fst (grid (cov (8 / 10)))) = 100%nat
  /\ nth 99 (nth 0 (fst (grid (cov (8 / 10)))) []) 0
     = 3 * sqrt (m00 (cov (8 / 10))).
Proof.
  assert (Hin : In (8 / 10) cov_val) by (simpl; auto).
  pose proof (grid_spans_three_sd (8 / 10) Hin) as H. cbv zeta in H.
  destruct H as (_ & HX & _ & _ & _ & _ & Hrow & _).
  split; [exact Hin|]. split; [exact HX|].
  apply (Hrow 0%nat). lia.
Defined.

(** ** Further properties of the grid and of the density *)

Lemma grid_meshgrid (c : mat2) :
  grid c = meshgrid (linspace (-3 * m00 c) (3 * m00 c) 100)
                    (linspace (-3 * m11 c) (3 * m11 c) 100).
Proof. reflexivity. Qed.

Lemma INR_99 : INR 99 = 99.
Proof. rewrite INR_IZR_INZ. reflexivity. Qed.

Lemma grid_X_entry (c : mat2) (i j : nat) :
  (i < 100)%nat -> (j < 100)%nat ->
  nth j (nth i (fst (grid c)) []) 0 = -3 * m00 c + INR j * (6 * m00 c / 99).
Proof.
  intros Hi Hj. rewrite grid_meshgrid.
  rewrite meshgrid_X_nth by now rewrite linspace_length.
  rewrite linspace_nth by assumption.
  change (100 - 1)%nat with 99%nat. rewrite INR_99. field.
Qed.

Lemma grid_Y_entry (c : mat2) (i j : nat) :
  (i < 100)%nat -> (j < 100)%nat ->
  nth j (nth i (snd (grid c)) []) 0 = -3 * m11 c + INR i * (6 * m11 c / 99).
Proof.
  intros Hi Hj. rewrite grid_meshgrid.
  rewrite meshgrid_Y_nth by now rewrite linspace_length.
  rewrite linspace_nth by assumption.
  change (100 - 1)%nat with 99%nat. rewrite INR_99. field.
Qed.

Lemma grid_shape (c : mat2) :
  length (fst (grid c)) = 100%nat /\ length (snd (grid c)) = 100%nat
  /\ Forall (fun r => length r = 100%nat) (fst (grid c))
  /\ Forall (fun r => length r = 100%nat) (snd (grid c)).
Proof.
  rewrite grid_meshgrid.
  destruct (meshgrid_shape (linspace (-3 * m00 c) (3 * m00 c) 100)
                           (linspace (-3 * m11 c) (3 * m11 c) 100))
    as (S1 & S2 & S3 & S4).
  rewrite !linspace_length in *. auto.
Qed.

(** X1. For an arbitrary covariance matrix the grid is scaled by the
    diagonal entries themselves: axis [i] runs from [-3 cov[i,i]] to
    [3 cov[i,i]] in 100 even steps.  This is three standard deviations
    only when the variance [cov[i,i]] is 0 or 1. *)
Theorem grid_spans_three_variances (c : mat2) (i j : nat) :
  (i < 100)%nat -> (j < 100)%nat ->
  let X := fst (grid c) in
  let Y := snd (grid c) in
  nth j (nth i X []) 0 = -3 * m00 c + INR j * (6 * m00 c / 99)
  /\ nth j (nth i Y []) 0 = -3 * m11 c + INR i * (6 * m11 c / 99)
  /\ nth 0 (nth i X []) 0 = -3 * m00 c
  /\ nth 99 (nth i X []) 0 = 3 * m00 c
  /\ nth j (nth 0 Y []) 0 = -3 * m11 c
  /\ nth j (nth 99 Y []) 0 = 3 * m11 c
  /\ (0 <= m00 c ->
      (3 * m00 c = 3 * sqrt (m00 c) <-> m00 c = 0 \/ m00 c = 1)).
Proof.
  intros Hi Hj X Y. subst X Y.
  rewrite !grid_X_entry, !grid_Y_entry by lia.
  rewrite INR_99. simpl INR.
  repeat split; try (field; lra); try lra.
  - intros E.
    assert (Es : sqrt (m00 c) = m00 c) by lra.
    assert (Hsq : sqrt (m00 c) * sqrt (m00 c) = m00 c)
      by (apply sqrt_sqrt; assumption).
    rewrite Es in Hsq.
    assert (Hf : m00 c * (m00 c - 1) = 0) by lra.
    apply Rmult_integral in Hf. destruct Hf; [left | right]; lra.
  - intros [-> | ->]; [rewrite sqrt_0 | rewrite sqrt_1]; lra.
Qed.

Lemma grid_spans_three_variances_witness :
  nth 99 (nth 0 (fst (grid (Mat2 4 0 0 4))) []) 0 = 3 * 4.
Proof.
  assert (H0 : (0 < 100)%nat) by lia.
  assert (H99 : (99 < 100)%nat) by lia.
  exact (proj1 (proj2 (proj2 (proj2
           (grid_spans_three_variances (Mat2 4 0 0 4) 0 99 H0 H99))))).
Defined.

Lemma quad_form_inv_nonneg (S : mat2) (d : vec2) :
  m01 S = m10 S -> 0 < m00 S -> 0 < det S ->
  0 <= quad_form (inv S) d.
Proof.
  intros Hs H0 Hd. destruct d as [d1 d2]. unfold quad_form, inv. simpl.
  replace (d1 * (m11 S / det S * d1 + - m01 S / det S * d2)
           + d2 * (- m10 S / det S * d1 + m00 S / det S * d2))
    with ((m11 S * d1 * d1 - 2 * m01 S * d1 * d2 + m00 S * d2 * d2)
          / det S)
    by (rewrite <- Hs; field; lra).
  apply Rmult_le_pos; [|left; now apply Rinv_0_lt_compat].
  assert (Hk : m00 S * (m11 S * d1 * d1 - 2 * m01 S * d1 * d2
                        + m00 S * d2 * d2)
               = (m00 S * d2 - m01 S * d1) * (m00 S * d2 - m01 S * d1)
                 + det S * (d1 * d1)).
  { unfold det. rewrite <- Hs. ring. }
  assert (Hp : 0 <= m00 S * (m11 S * d1 * d1 - 2 * m01 S * d1 * d2
                             + m00 S * d2 * d2)).
  { rewrite Hk. apply Rplus_le_le_0_compat; [apply Rle_0_sqr|].
    apply Rmult_le_pos; [lra | apply Rle_0_sqr]. }
  destruct (Rle_or_lt 0 (m11 S * d1 * d1 - 2 * m01 S * d1 * d2
                         + m00 S * d2 * d2)) as [H|H]; [exact H|].
  exfalso. nra.
Qed.

(** X3. For a symmetric positive definite covariance matrix the density
    of the notebook is positive everywhere and largest at the mean. *)
Theorem f_X_max_at_mean (mu : vec2) (Sigma : mat2) (x : vec2) :
  m01 Sigma = m10 Sigma -> 0 < m00 Sigma -> 0 < det Sigma ->
  0 < f_X mu Sigma x <= f_X mu Sigma mu.
Proof.
  intros Hs H0 Hd. rewrite f_X_at_mean. unfold f_X.
  pose proof two_pi_gt_1 as Hpi.
  assert (Hn : 0 < 1 / sqrt (2 * PI * det Sigma)).
  { apply Rdiv_lt_0_compat; [lra|]. apply sqrt_lt_R0. nra. }
  pose proof (quad_form_inv_nonneg Sigma (vsub x mu) Hs H0 Hd) as Hq.
  pose proof (exp_pos (- quad_form (inv Sigma) (vsub x mu) / 2)) as He.
  assert (Hle : exp (- quad_form (inv Sigma) (vsub x mu) / 2) <= 1).
  { rewrite <- exp_0.
    destruct (Req_dec (quad_form (inv Sigma) (vsub x mu)) 0) as [E|E].
    - rewrite E. replace (- 0 / 2) with 0 by lra. lra.
    - left. apply exp_increasing. lra. }
  split; [now apply Rmult_lt_0_compat|]. nra.
Qed.

Lemma f_X_max_at_mean_witness :
  0 < f_X mean (cov (8 / 10)) (1, 2) <= f_X mean (cov (8 / 10)) mean.
Proof.
  apply (f_X_max_at_mean mean (cov (8 / 10)) (1, 2)).
  - reflexivity.
  - simpl. lra.
  - unfold det, cov; simpl. lra.
Defined.

(** X4. The density of the notebook is symmetric about the mean, for
    every matrix [Sigma]: displacing the mean by [d] or by [-d] gives
    the same value. *)
Theorem f_X_symmetric (mu : vec2) (Sigma : mat2) (d1 d2 : R) :
  f_X mu Sigma (fst mu + d1, snd mu + d2)
  = f_X mu Sigma (fst mu - d1, snd mu - d2).
Proof.
  unfold f_X. do 2 f_equal. unfold Rdiv. f_equal. f_equal.
  unfold quad_form, vsub. simpl. ring.
Qed.



(** X6. Changing the sign of the covariance mirrors the density in the
    first axis: the surface plotted for [val = -0.8] is the mirror
    image of the one plotted for [val = 0.8]. *)
Theorem f_X_cov_mirror (val x1 x2 : R) :
  f_X mean (cov (- val)) (x1, x2) = f_X mean (cov val) (x1, - x2).
Proof.
  unfold f_X.
  assert (Ed : det (cov (- val)) = det (cov val))
    by (unfold det, cov; simpl; ring).
  f_equal; [now rewrite Ed|]. f_equal. unfold Rdiv. f_equal. f_equal.
  unfold quad_form, inv, vsub, mean. rewrite Ed. simpl.
  unfold Rdiv. ring.
Qed.

End Bivariate.

(* ================================================================== *)
(** * Question 3: the multilayer perceptron *)
(* ================================================================== *)

Module MLP.

(** ** Errors: a Python exception is [None] *)

Definition obind {A B : Type} (o : option A) (f : A -> option B) : option B :=
  match o with
  | Some a => f a
  | None => None
  end.

Notation "x <- e ;; k" := (obind e (fun x => k))
  (at level 61, e at next level, right associativity).

Fixpoint mapM {A B : Type} (f : A -> option B) (l : list A)
  : option (list B) :=
  match l with
  | [] => Some []
  | a :: t => b <- f a ;; bs <- mapM f t ;; Some (b :: bs)
  end.

(** ** Arrays *)

(** A one-dimensional array. *)
Definition vector : Type := list R.

(** A two-dimensional array of shape [(nrows, ncols)]; the shape is part
    of the value, as for an [ndarray], so that an array without rows
    still has a number of columns. *)
Record matrix : Type :=
  Matrix { nrows : nat; ncols : nat; coef : nat -> nat -> R }.

(** One layer [(w, b)], and the parameter list of the network. *)
Definition layer : Type := (matrix * vector)%type.
Definition params : Type := list layer.

(** [np.sum] of a one-dimensional array. *)
Definition sum (v : vector) : R := fold_right Rplus 0 v.

Definition row (w : matrix) (i : nat) : vector :=
  map (coef w i) (seq 0 (ncols w)).

Fixpoint inner (u v : vector) : R :=
  match u, v with
  | a :: u', b :: v' => a * b + inner u' v'
  | _, _ => 0
  end.

(** [np.dot(w, x)] for [w] of shape [(n, m)] and [x] of shape [(k,)]:
    the shapes must agree ([m = k]), otherwise the call raises. *)
Definition dot (w : matrix) (x : vector) : option vector :=
  if (ncols w =? length x)%nat
  then Some (map (fun i => inner (row w i) x) (seq 0 (nrows w)))
  else None.

Fixpoint zip_with {A B C : Type} (f : A -> B -> C) (u : list A) (v : list B)
  : list C :=
  match u, v with
  | a :: u', b :: v' => f a b :: zip_with f u' v'
  | _, _ => []
  end.

(** NumPy broadcasting of a binary operation along one axis: equal
    lengths combine pointwise, an axis of length one is stretched to the
    other one, any other pair of lengths raises. *)
Definition broadcast {A B C : Type} (f : A -> B -> C) (u : list A)
           (v : list B) : option (list C) :=
  if (length u =? length v)%nat then Some (zip_with f u v)
  else match u, v with
       | [a], _ => Some (map (fun y => f a y) v)
       | _, [b] => Some (map (fun x => f x b) u)
       | _, _ => None
       end.

(** [u + v] and [u * v] on one-dimensional arrays. *)
Definition add (u v : vector) : option vector := broadcast Rplus u v.
Definition mul (u v : vector) : option vector := broadcast Rmult u v.

(** [a * b] on two-dimensional arrays given by their rows. *)
Definition mul2 (a b : list vector) : option (list vector) :=
  rows <- broadcast mul a b ;; mapM (fun r => r) rows.

(** [np.sum] of a two-dimensional array. *)
Definition sum2 (a : list vector) : R := sum (map sum a).

(** Modelled from the spec: [ReLU] is called by [relu_layer] and never
    defined in the notebook; the specification names it the
    rectified-linear nonlinearity, [max(0, x)] on every entry. *)
Definition ReLU (v : vector) : vector := map (Rmax 0) v.

(** [relu_layer(params, x) = ReLU(np.dot(params[0], x) + params[1])]. *)
Definition relu_layer (p : layer) (x : vector) : option vector :=
  wx <- dot (fst p) x ;;
  s <- add wx (snd p) ;;
  Some (ReLU s).

(** [jax.scipy.special.logsumexp], in exact arithmetic. *)
Definition logsumexp (v : vector) : R := ln (sum (map exp v)).

(** [params[-1]]; an [IndexError] on the empty list. *)
Fixpoint last_layer (ps : params) : option layer :=
  match ps with
  | [] => None
  | [l] => Some l
  | _ :: t => last_layer t
  end.

(** The loop [for w, b in ...: activations = relu_layer([w, b], activations)]. *)
Fixpoint hidden_layers (ls : list layer) (activations : vector)
  : option vector :=
  match ls with
  | [] => Some activations
  | l :: t => a <- relu_layer l activations ;; hidden_layers t a
  end.

(** [forward_pass(params, in_array)]. *)
Definition forward_pass (ps : params) (in_array : vector) : option vector :=
  activations <- hidden_layers (removelast ps) in_array ;;
  final <- last_layer ps ;;
  wx <- dot (fst final) activations ;;
  logits <- add wx (snd final) ;;
  Some (map (fun l => l - logsumexp logits) logits).

(** [batch_forward = vmap(forward_pass, in_axes=(None, 0), out_axes=0)]:
    the forward pass of every row of the batch. *)
Definition batch_forward (ps : params) (in_arrays : list vector)
  : option (list vector) :=
  mapM (forward_pass ps) in_arrays.

(** [np.dot(X, w.T)] for [X] of shape [(B, f)] and [w] of shape
    [(h, f')]: it raises unless [f = f']; the rows of the result. *)
Definition dot_T (X w : matrix) : option (list vector) :=
  if (ncols X =? ncols w)%nat
  then Some (map (fun i => map (fun j => inner (row X i) (row w j))
                               (seq 0 (nrows w)))
                 (seq 0 (nrows X)))
  else None.

(** [a + b] for a two-dimensional [a] given by its rows and a
    one-dimensional [b]: [b] is broadcast along the rows. *)
Definition add_rows (a : list vector) (b : vector) : option (list vector) :=
  mapM (fun r => add r b) a.

(** [batch_version_relu_layer(params, x)]:
    [ReLU(np.dot(X, params[0].T) + params[1])], on the global batch [X];
    the argument [x] is not used. *)
Definition batch_version_relu_layer (X : matrix) (p : layer) (x : matrix)
  : option (list vector) :=
  a <- dot_T X (fst p) ;;
  s <- add_rows a (snd p) ;;
  Some (map ReLU s).

(** [np.stack] of a list of one-dimensional arrays: it raises on the
    empty list and on arrays of different lengths. *)
Definition stack (l : list vector) : option (list vector) :=
  match l with
  | [] => None
  | r :: t =>
      if forallb (fun r' => (length r' =? length r)%nat) t
      then Some l else None
  end.

(** [np.stack([relu_layer(params, X[i, :]) for i in range(X.shape[0])])]. *)
Definition stacked_relu_layer (X : matrix) (p : layer)
  : option (list vector) :=
  rows <- mapM (fun i => relu_layer p (row X i)) (seq 0 (nrows X)) ;;
  stack rows.

(** The widths of a parameter list that fits an input of [d] entries:
    every weight has as many columns as the layer below has outputs and
    every bias as many entries as its weight has rows.  The result is
    the width of the last layer. *)
Fixpoint shape_chain (d : nat) (ps : params) : option nat :=
  match ps with
  | [] => Some d
  | (w, b) :: t =>
      if ((ncols w =? d) && (length b =? nrows w))%nat
      then shape_chain (nrows w) t
      else None
  end.

(** ** Arg-max and one-hot encoding *)

(** The scan of [np.argmax]: the index of the first largest entry. *)
Fixpoint argmax_from (best_i : nat) (best : R) (i : nat) (l : vector) : nat :=
  match l with
  | [] => best_i
  | x :: t =>
      if Rlt_dec best x then argmax_from i x (S i) t
      else argmax_from best_i best (S i) t
  end.

(** [np.argmax] of a one-dimensional array; it raises on an empty one. *)
Definition argmax (l : vector) : option nat :=
  match l with
  | [] => None
  | x :: t => Some (argmax_from 0 x 1 t)
  end.

(** What [np.argmax] is documented to return: the index of a largest
    entry, and the first such index. *)
Definition is_argmax (l : vector) (i : nat) : Prop :=
  (i < length l)%nat
  /\ (forall j, (j < length l)%nat -> nth j l 0 <= nth i l 0)
  /\ (forall j, (j < i)%nat -> nth j l 0 < nth i l 0).

(** [np.argmax(a, axis=1)]. *)
Definition argmax_axis1 (a : list vector) : option (list nat) :=
  mapM argmax a.

(** [np.arange(k)]: empty when [k <= 0]. *)
Definition arange (k : Z) : list Z := map Z.of_nat (seq 0 (Z.to_nat k)).

(** [one_hot(x, k)]: [np.array(x[:, None] == np.arange(k), dtype)], one
    row of [k] floats per label of [x]. *)
Definition one_hot (x : list Z) (k : Z) : list vector :=
  map (fun xi => map (fun j => if (xi =? j)%Z then 1 else 0) (arange k)) x.

(** The integers an [int32] array holds, as the label array
    [np.array(target)] that [one_hot] receives. *)
Definition int32 (z : Z) : Prop := (- 2 ^ 31 <= z < 2 ^ 31)%Z.

(** The class [np.argmax] finds in the one-hot row of a label. *)
Definition target_class_of (k xi : Z) : nat :=
  if ((0 <=? xi) && (xi <? k))%Z then Z.to_nat xi else 0%nat.

(** ** Parameter initialisation *)

Section Initialisation.

(** The PRNG of [jax.random]: keys, the [i]-th of the [num] keys of
    [random.split(key, num)], and the entry at a flat (row-major) index
    of the array [random.normal(key, shape)]. *)
Variable key : Type.
Variable subkey : key -> nat -> nat -> key.
Variable normal : key -> list nat -> nat -> R.

(** [random.split(key, num)]. *)
Definition split (k : key) (num : nat) : list key :=
  map (subkey k num) (seq 0 num).

(** [random.normal(key, (n, m))] and [random.normal(key, (n,))]. *)
Definition normal_matrix (k : key) (n m : nat) : matrix :=
  Matrix n m (fun i j => normal k [n; m] (i * m + j)).

Definition normal_vector (k : key) (n : nat) : vector :=
  map (normal k [n]) (seq 0 n).

(** [scale * array]. *)
Definition scale_matrix (scale : R) (w : matrix) : matrix :=
  Matrix (nrows w) (ncols w) (fun i j => scale * coef w i j).

Definition scale_vector (scale : R) (v : vector) : vector :=
  map (fun x => scale * x) v.

(** The helper [initialize_layer(m, n, key, scale=1e-2)]. *)
Definition initialize_layer (m n : nat) (k : key) (scale : R) : layer :=
  let w_key := subkey k 2 0 in
  let b_key := subkey k 2 1 in
  (scale_matrix scale (normal_matrix w_key n m),
   scale_vector scale (normal_vector b_key n)).

(** [zip(a, b, c)]. *)
Definition zip3 {A B C : Type} (a : list A) (b : list B) (c : list C)
  : list (A * B * C) :=
  combine (combine a b) c.

(** [initialize_mlp(sizes, key)]; [sizes[:-1]] is [removelast sizes]
    and [sizes[1:]] is [tl sizes]. *)
Definition initialize_mlp (sizes : list nat) (k : key) : params :=
  let keys := split k (length sizes) in
  map (fun mnk : nat * nat * key =>
         let '(m, n, k') := mnk in initialize_layer m n k' (1 / 100))
      (zip3 (removelast sizes) (tl sizes) keys).

End Initialisation.

(** ** Parameter initialisation, run in a world *)

Section InitialisationRun.

(** A run of the notebook happens in a world: the global generators of
    numpy and torch, the clock, whatever else a call may read or
    change.  [random_split] and [random_normal] are the two calls of
    [jax.random] as they happen in a world: each returns its result,
    the keys of [random.split(key, num)] or the entries of
    [random.normal(key, shape)] by flat index, and the world it
    leaves. *)
Variable World : Type.
Variable key : Type.
Variable random_split : key -> nat -> World -> list key * World.
Variable random_normal : key -> list nat -> World -> (nat -> R) * World.

(** A computation of a run: it may raise, and it may change the world. *)
Definition Run (A : Type) : Type := World -> option (A * World).

Definition run_ret {A : Type} (a : A) : Run A := fun w => Some (a, w).

Definition run_bind {A B : Type} (m : Run A) (f : A -> Run B) : Run B :=
  fun w => match m w with
           | Some (a, w') => f a w'
           | None => None
           end.

Definition run_call {A : Type} (f : World -> A * World) : Run A :=
  fun w => Some (f w).

Fixpoint run_mapM {A B : Type} (f : A -> Run B) (l : list A) : Run (list B) :=
  match l with
  | [] => run_ret []
  | a :: t =>
      run_bind (f a) (fun b =>
      run_bind (run_mapM f t) (fun bs => run_ret (b :: bs)))
  end.

(** [initialize_layer(m, n, key, scale)] in a run; unpacking
    [w_key, b_key = random.split(key)] raises unless there are two
    keys. *)
Definition initialize_layer_run (m n : nat) (k : key) (scale : R)
  : Run layer :=
  run_bind (run_call (random_split k 2)) (fun ks =>
    match ks with
    | [w_key; b_key] =>
        run_bind (run_call (random_normal w_key [n; m]))
                 (fun wn : nat -> R =>
        run_bind (run_call (random_normal b_key [n])) (fun bn : nat -> R =>
        run_ret (scale_matrix scale
                   (Matrix n m (fun i j => wn (i * m + j)%nat)),
                 scale_vector scale (map bn (seq 0 n)))))
    | _ => fun _ => None
    end).

(** [initialize_mlp(sizes, key)] in a run: the keys first, then the
    layers in the order of the list comprehension. *)
Definition initialize_mlp_run (sizes : list nat) (k : key) : Run params :=
  run_bind (run_call (random_split k (length sizes))) (fun keys =>
    run_mapM (fun mnk : nat * nat * key =>
                let '(m, n, k') := mnk in
                initialize_layer_run m n k' (1 / 100))
             (zip3 (removelast sizes) (tl sizes) keys)).

(** The sub-keys and the draws of the PRNG as seen from one world. *)
Definition subkey_at (w0 : World) (k : key) (num i : nat) : key :=
  nth i (fst (random_split k num w0)) k.

Definition normal_at (w0 : World) (k : key) (shape : list nat) (i : nat) : R :=
  fst (random_normal k shape w0) i.

End InitialisationRun.

(** ** Data loaders *)

(** The pixels of one image tensor of shape [(1, 28, 28)], row-major. *)
Definition image : Type := list R.

(** One example [(image, label)] and one batch [(data, target)]. *)
Definition example : Type := (image * Z)%type.
Definition batch : Type := list example.

Definition data (b : batch) : list image := map fst b.
Definition target (b : batch) : list Z := map snd b.

(** A [torch.utils.data.DataLoader]. *)
Record DataLoader : Type :=
  { dataset : list example; batch_size : nat; shuffle : bool }.

(** The elements of [l] at the indices [order], in that order. *)
Definition select {A : Type} (l : list A) (order : list nat) : list A :=
  flat_map (fun i => match nth_error l i with
                     | Some a => [a]
                     | None => []
                     end) order.

(** Consecutive batches of [n] elements, the last one possibly shorter. *)
Fixpoint chunks_fuel {A : Type} (fuel n : nat) (l : list A) : list (list A) :=
  match fuel with
  | O => []
  | S fuel' =>
      match l with
      | [] => []
      | _ => firstn n l :: chunks_fuel fuel' n (skipn n l)
      end
  end.

Definition chunks {A : Type} (n : nat) (l : list A) : list (list A) :=
  chunks_fuel (length l) n l.

(** [len(data_loader)]: the number of batches of one pass. *)
Definition num_batches (dl : DataLoader) : nat :=
  length (chunks (batch_size dl) (dataset dl)).

(** [np.array(data).reshape(data.size(0), 28*28)]: it raises unless
    every image of the batch has [28*28] pixels. *)
Definition reshape (d : list image) : option (list vector) :=
  if forallb (fun im => (length im =? 28 * 28)%nat) d then Some d else None.

(** The input [x] of a training step: flattened rows for the MLP, the
    image tensors as they are for the CNN. *)
Inductive tensor : Type :=
| Flat (rows : list vector)
| Unflattened (images : list image).

(** [predicted_class == target_class] followed by [np.sum]. *)
Definition count_eq (u v : list nat) : nat :=
  length (filter (fun uv => (fst uv =? snd uv)%nat) (combine u v)).

(** The class the network predicts for one flattened image: the arg-max
    of the log-probabilities of its forward pass. *)
Definition predicted_class (ps : params) (im : vector) : option nat :=
  out <- forward_pass ps im ;; argmax out.

(** Whether the predicted class of an example is its target class. *)
Definition correct (ps : params) (e : example) : bool :=
  match predicted_class ps (fst e) with
  | Some c => (Z.of_nat c =? snd e)%Z
  | None => false
  end.

(** The output and the class of an image, where the forward pass and
    the arg-max return. *)
Definition out_of (ps : params) (im : image) : vector :=
  match forward_pass ps im with Some out => out | None => [] end.

Definition class_of (ps : params) (im : image) : nat :=
  match predicted_class ps im with Some c => c | None => 0%nat end.

(** An example the loop of [accuracy] can process: an image of
    [28 * 28] pixels. *)
Definition image_ok (e : example) : Prop := length (fst e) = (28 * 28)%nat.

(** The number of examples predicted correctly. *)
Definition count_correct (ps : params) (l : list example) : nat :=
  length (filter (correct ps) l).

(** The decimal digits of [n], as [format] prints an integer. *)
Definition string_of_nat (n : nat) : string :=
  NilEmpty.string_of_uint (Nat.to_uint n).

(** ** Sample networks *)

(** The final layer with no output unit of the network of widths
    [[2, 0]], a weight of shape [(0, 2)] and a bias of shape [(0,)]. *)
Definition no_class_params : params := [(Matrix 0 2 (fun _ _ => 0), [])].

(** A network of widths [[2, 2]]. *)
Definition two_class_params : params :=
  [(Matrix 2 2 (fun i j => if (i =? j)%nat then 1 else 0), [0; 0])].

(** [layer_sizes = [784, 512, 512, 10]]. *)
Definition layer_sizes : list nat := [784; 512; 512; 10]%nat.

(** A PRNG for the samples: keys are numbers, the [i]-th of [num]
    sub-keys of [k] is [k * num + i + 1], every draw is zero. *)
Definition sample_subkey (k num i : nat) : nat := (k * num + i + 1)%nat.
Definition sample_normal (k : nat) (shape : list nat) (i : nat) : R := 0.

(** A world for the samples: a counter that every call of the PRNG
    advances; the sub-keys and the draws depend on the key alone. *)
Definition sample_random_split (k num : nat) (w : nat) : list nat * nat :=
  (map (sample_subkey k num) (seq 0 num), S w).
Definition sample_random_normal (k : nat) (shape : list nat) (w : nat)
  : (nat -> R) * nat :=
  (fun i => INR (k + i), (w + 2)%nat).

(** A one-layer network for the [28 * 28] images and ten classes, all
    of whose weights and biases are zero. *)
Definition sample_params : params :=
  [(Matrix 10 (28 * 28) (fun _ _ => 0), repeat 0 10)].

(** A loader over a dataset of two blank images labelled 0 and 3. *)
Definition sample_loader : DataLoader :=
  {| dataset := [(repeat 0 (28 * 28), 0%Z); (repeat 0 (28 * 28), 3%Z)];
     batch_size := 64;
     shuffle := true |}.

(** A loader over an empty dataset, and one over a single image of two
    pixels. *)
Definition empty_loader : DataLoader :=
  {| dataset := []; batch_size := 64; shuffle := true |}.

Definition tiny_image_loader : DataLoader :=
  {| dataset := [([1; 2], 0%Z)]; batch_size := 64; shuffle := true |}.

(** An environment for the samples: a sampler that keeps the order of
    the dataset, a clock that stands still, empty float formats and an
    optimizer that has only the parameters as its state and leaves
    them as they are. *)
Definition sample_randperm (n : nat) (w : unit) : list nat * unit :=
  (seq 0 n, w).
Definition sample_time (w : unit) : R * unit := (0, w).
Definition sample_fmt (x : R) : string := EmptyString.
Definition sample_opt_update (i : Z) (g : unit) (s : params) : params := s.
Definition sample_get_params (s : params) : params := s.
Definition sample_grad (f : params -> option R) (p : params) : unit := tt.
Definition sample_forward_unflattened (ps : params) (im : image)
  : option vector := None.
Definition sample_good (s : params) : Prop := s = sample_params.


(** ** Accuracy, loss and the training loop *)

Section Training.

(** What the notebook takes from its environment.  [W] is the state of
    the outside world (the generator of torch and the clock):
    [randperm n] draws the order in which a shuffling loader visits [n]
    examples and [time_time] reads the clock.  [fmt_2f] and [fmt_3f]
    print a float under [{:0.2f}] and [{:0.3f}]. *)
Variable W : Type.
Variable randperm : nat -> W -> list nat * W.
Variable time_time : W -> R * W.
Variable fmt_2f fmt_3f : R -> string.

(** The optimizer [optimizers.adam(step_size)] and automatic
    differentiation: [grad f p] is the gradient of [f] at [p]. *)
Variable grads : Type.
Variable opt_state_t : Type.
Variable opt_update : Z -> grads -> opt_state_t -> opt_state_t.
Variable get_params : opt_state_t -> params.
Variable grad : (params -> option R) -> params -> grads.

(** The forward pass on an image tensor that was not flattened (the
    ["CNN"] branch of the loop hands such tensors to [update]). *)
Variable forward_pass_unflattened : params -> image -> option vector.

(** The globals [num_classes], [train_loader] and [test_loader]. *)
Variable num_classes : Z.
Variable train_loader test_loader : DataLoader.

(** The optimizer states the loop is meant to run on, those whose
    parameters have the shapes of the network. *)
Variable good : opt_state_t -> Prop.

(** *** The monad of the loop: world, console, exceptions *)

Record state : Type := State { world : W; stdout : list string }.

Definition M (A : Type) : Type := state -> option (A * state).

Definition ret {A : Type} (a : A) : M A := fun st => Some (a, st).

Definition bind {A B : Type} (m : M A) (f : A -> M B) : M B :=
  fun st => match m st with
            | Some (a, st') => f a st'
            | None => None
            end.

Notation "x <~ e ;; k" := (bind e (fun x => k))
  (at level 61, e at next level, right associativity).

(** A pure computation that may raise. *)
Definition lift {A : Type} (o : option A) : M A :=
  fun st => match o with
            | Some a => Some (a, st)
            | None => None
            end.

Definition with_world {A : Type} (f : W -> A * W) : M A :=
  fun st => let (a, w) := f (world st) in Some (a, State w (stdout st)).

(** [print(line)]. *)
Definition print (line : string) : M unit :=
  fun st => Some (tt, State (world st) (stdout st ++ [line])).

(** A [for] loop threading an accumulator. *)
Fixpoint foldM {A B : Type} (f : B -> A -> M B) (l : list A) (b : B) : M B :=
  match l with
  | [] => ret b
  | a :: t => b' <~ f b a ;; foldM f t b'
  end.

(** One pass over a loader, [enumerate(data_loader)]: the examples in
    the order of the sampler, cut into batches. *)
Definition iter (dl : DataLoader) : M (list batch) :=
  order <~ (if shuffle dl
            then with_world (randperm (length (dataset dl)))
            else ret (seq 0 (length (dataset dl)))) ;;
  ret (chunks (batch_size dl) (select (dataset dl) order)).

(** *** [loss] and [accuracy] *)

Definition batch_forward_tensor (ps : params) (x : tensor)
  : option (list vector) :=
  match x with
  | Flat rows => batch_forward ps rows
  | Unflattened images => mapM (forward_pass_unflattened ps) images
  end.

(** [loss(params, in_arrays, targets)]. *)
Definition loss (ps : params) (in_arrays : tensor) (targets : list vector)
  : option R :=
  preds <- batch_forward_tensor ps in_arrays ;;
  prod <- mul2 preds targets ;;
  Some (- sum2 prod).

(** The body of the loop of [accuracy], for one batch. *)
Definition accuracy_batch (ps : params) (acc_total : nat) (b : batch)
  : option nat :=
  images <- reshape (data b) ;;
  let targets := one_hot (target b) num_classes in
  target_class <- argmax_axis1 targets ;;
  out <- batch_forward ps images ;;
  predicted_class <- argmax_axis1 out ;;
  Some (acc_total + count_eq predicted_class target_class)%nat.

(** [accuracy(params, data_loader)]; the final division raises on an
    empty dataset. *)
Definition accuracy (ps : params) (data_loader : DataLoader) : M R :=
  batches <~ iter data_loader ;;
  acc_total <~ foldM (fun acc b => lift (accuracy_batch ps acc b))
                     batches 0%nat ;;
  match length (dataset data_loader) with
  | O => lift None
  | S _ => ret (INR acc_total / INR (length (dataset data_loader)))
  end.

(** An example whose label is one of the [num_classes] classes. *)
Definition label_ok (e : example) : Prop := (0 <= snd e < num_classes)%Z.

(** A loader as [torch] builds it over a labelled image dataset: a
    positive batch size and a non-empty dataset of [28 * 28] images
    labelled with classes. *)
Definition loader_ok (dl : DataLoader) : Prop :=
  (0 < batch_size dl)%nat /\ dataset dl <> []
  /\ Forall image_ok (dataset dl) /\ Forall label_ok (dataset dl).

(** The fraction of the examples of a loader's dataset that [ps]
    predicts correctly. *)
Definition fraction_correct (ps : params) (dl : DataLoader) : R :=
  INR (count_correct ps (dataset dl)) / INR (length (dataset dl)).

(** *** [update] *)

(** [value_and_grad(f)(p)]. *)
Definition value_and_grad (f : params -> option R) (p : params)
  : option (R * grads) :=
  value <- f p ;; Some (value, grad f p).

(** [update(params, x, y, opt_state)]. *)
Definition update (ps : params) (x : tensor) (y : list vector)
           (opt_state : opt_state_t) : option (params * opt_state_t * R) :=
  vg <- value_and_grad (fun p => loss p x y) ps ;;
  let opt_state' := opt_update 0%Z (snd vg) opt_state in
  Some (get_params opt_state', opt_state', fst vg).

(** *** The training loop *)

(** The variables the loop carries from one step to the next. *)
Record loop : Type :=
  Loop { params_of : params;
         opt_state_of : opt_state_t;
         train_loss : list R;
         log_acc_train : list R;
         log_acc_test : list R }.

(** The loop invariant: the parameters are those of a good optimizer
    state. *)
Definition inv (l : loop) : Prop :=
  good (opt_state_of l) /\ params_of l = get_params (opt_state_of l).


(** The [if net_type == "MLP": ... elif net_type == "CNN": ...] of the
    inner loop; with any other [net_type] the name [x] is unbound. *)
Definition input_of (net_type : string) (d : list image) : option tensor :=
  if String.eqb net_type "MLP" then rows <- reshape d ;; Some (Flat rows)
  else if String.eqb net_type "CNN" then Some (Unflattened d)
  else None.

(** One training step, the body of the loop over the batches. *)
Definition train_step (net_type : string) (l : loop) (b : batch)
  : option loop :=
  x <- input_of net_type (data b) ;;
  let y := one_hot (target b) num_classes in
  r <- update (params_of l) x y (opt_state_of l) ;;
  let '(ps, opt_state, loss_value) := r in
  Some (Loop ps opt_state (train_loss l ++ [loss_value])
             (log_acc_train l) (log_acc_test l)).

(** ["Epoch {} | T: {:0.2f} | Train A: {:0.3f} | Test A: {:0.3f}"]. *)
Definition status_line (n : nat) (epoch_time train_acc test_acc : R)
  : string :=
  ("Epoch " ++ string_of_nat n ++ " | T: " ++ fmt_2f epoch_time
   ++ " | Train A: " ++ fmt_3f train_acc
   ++ " | Test A: " ++ fmt_3f test_acc)%string.

(** One epoch, the body of [for epoch in range(num_epochs)]. *)
Definition run_epoch (net_type : string) (l : loop) (epoch : nat) : M loop :=
  start_time <~ with_world time_time ;;
  batches <~ iter train_loader ;;
  l1 <~ foldM (fun l b => lift (train_step net_type l b)) batches l ;;
  now <~ with_world time_time ;;
  let epoch_time := now - start_time in
  train_acc <~ accuracy (params_of l1) train_loader ;;
  test_acc <~ accuracy (params_of l1) test_loader ;;
  _ <~ print (status_line (epoch + 1) epoch_time train_acc test_acc) ;;
  ret (Loop (params_of l1) (opt_state_of l1) (train_loss l1)
            (log_acc_train l1 ++ [train_acc])
            (log_acc_test l1 ++ [test_acc])).

(** [run_mnist_training_loop(num_epochs, opt_state, net_type)]. *)
Definition run_mnist_training_loop (num_epochs : nat)
           (opt_state : opt_state_t) (net_type : string)
  : M (list R * list R * list R) :=
  let ps := get_params opt_state in
  train_acc <~ accuracy ps train_loader ;;
  test_acc <~ accuracy ps test_loader ;;
  l <~ foldM (run_epoch net_type) (seq 0 num_epochs)
             (Loop ps opt_state [] [train_acc] [test_acc]) ;;
  ret (train_loss l, log_acc_train l, log_acc_test l).

(** *** What an epoch is to do *)





(** ** The forward pass *)

Lemma sum_app (u v : vector) : sum (u ++ v) = sum u + sum v.
Proof. induction u as [|a u IH]; simpl; [ring | rewrite IH; ring]. Qed.

Lemma sum_exp_pos (v : vector) : v <> [] -> 0 < sum (map exp v).
Proof.
  induction v as [|a v IH]; [congruence|]. intros _.
  simpl. pose proof (exp_pos a). destruct v as [|b v].
  - simpl. lra.
  - assert (0 < sum (map exp (b :: v))) by (apply IH; congruence). lra.
Qed.

Lemma sum_exp_shift (c : R) (v : vector) :
  sum (map exp (map (fun l => l - c) v)) = sum (map exp v) * exp (- c).
Proof.
  induction v as [|a v IH]; simpl; [ring|].
  rewrite IH. unfold Rminus. rewrite exp_plus. ring.
Qed.

(** Subtracting the log-sum-exp of a non-empty vector normalises it. *)
Lemma log_softmax_normalised (logits : vector) :
  logits <> [] ->
  sum (map exp (map (fun l => l - logsumexp logits) logits)) = 1.
Proof.
  intros Hne. rewrite sum_exp_shift. unfold logsumexp.
  pose proof (sum_exp_pos logits Hne) as Hpos.
  rewrite exp_Ropp, exp_ln by assumption. field. lra.
Qed.

Lemma obind_Some {A B : Type} (o : option A) (f : A -> option B) (b : B) :
  obind o f = Some b -> exists a, o = Some a /\ f a = Some b.
Proof. destruct o as [a|]; simpl; [eauto | discriminate]. Qed.

Ltac obind_inv H :=
  let a := fresh "a" in
  let E := fresh "E" in
  apply obind_Some in H; destruct H as (a & E & H).

(** The vector [forward_pass] returns is [logits - logsumexp(logits)]
    for the logits of the last layer. *)
Lemma forward_pass_inv (ps : params) (x lp : vector) :
  forward_pass ps x = Some lp ->
  exists logits, lp = map (fun l => l - logsumexp logits) logits.
Proof.
  unfold forward_pass. intros H.
  obind_inv H. obind_inv H. obind_inv H. obind_inv H.
  injection H as <-. eauto.
Qed.

Lemma zip_with_length {A B C : Type} (f : A -> B -> C) (u : list A)
      (v : list B) :
  length (zip_with f u v) = Nat.min (length u) (length v).
Proof.
  revert v. induction u as [|a u IH]; intros [|b v]; simpl; auto.
Qed.

Lemma dot_Some (w : matrix) (x : vector) :
  ncols w = length x ->
  exists y, dot w x = Some y /\ length y = nrows w.
Proof.
  intros E. unfold dot. rewrite E, Nat.eqb_refl.
  eexists; split; [reflexivity|]. now rewrite length_map, length_seq.
Qed.

Lemma add_Some (u v : vector) :
  length u = length v ->
  exists y, add u v = Some y /\ length y = length u.
Proof.
  intros E. unfold add, broadcast. rewrite E, Nat.eqb_refl.
  eexists; split; [reflexivity|]. rewrite zip_with_length. lia.
Qed.

Lemma relu_layer_Some (w : matrix) (b x : vector) :
  ncols w = length x -> length b = nrows w ->
  exists y, relu_layer (w, b) x = Some y /\ length y = nrows w.
Proof.
  intros Hc Hb. unfold relu_layer; simpl.
  destruct (dot_Some w x Hc) as (wx & -> & Lwx). simpl.
  destruct (add_Some wx b) as (s & -> & Ls); [congruence|]. simpl.
  eexists; split; [reflexivity|]. unfold ReLU. rewrite length_map. congruence.
Qed.

Lemma forward_pass_cons (l l' : layer) (ps : params) (x : vector) :
  forward_pass (l :: l' :: ps) x
  = a <- relu_layer l x ;; forward_pass (l' :: ps) a.
Proof.
  unfold forward_pass.
  change (removelast (l :: l' :: ps)) with (l :: removelast (l' :: ps)).
  change (last_layer (l :: l' :: ps)) with (last_layer (l' :: ps)).
  simpl hidden_layers. destruct (relu_layer l x); reflexivity.
Qed.

(** On parameters whose shapes fit the input, [forward_pass] returns a
    vector, with one entry per row of the last weight. *)
Lemma forward_pass_total (ps : params) (x : vector) (k : nat) :
  ps <> [] -> shape_chain (length x) ps = Some k ->
  exists lp, forward_pass ps x = Some lp /\ length lp = k.
Proof.
  revert x. induction ps as [|[w b] ps IH]; [congruence|].
  intros x _ H. simpl in H.
  destruct ((ncols w =? length x)%nat && (length b =? nrows w)%nat) eqn:E;
    [|discriminate].
  apply andb_true_iff in E. destruct E as (Ec%Nat.eqb_eq & Eb%Nat.eqb_eq).
  destruct ps as [|l' ps].
  - simpl in H. injection H as <-.
    unfold forward_pass; simpl.
    destruct (dot_Some w x Ec) as (wx & -> & Lwx). simpl.
    destruct (add_Some wx b) as (s & -> & Ls); [congruence|]. simpl.
    eexists; split; [reflexivity|]. rewrite length_map. congruence.
  - rewrite forward_pass_cons.
    destruct (relu_layer_Some w b x Ec Eb) as (a & -> & La). simpl.
    apply IH; [congruence|]. now rewrite La.
Qed.

(** C1, as stated: the vector [forward_pass] returns sums to one in
    probability space for every parameter list.  It fails on a last
    layer without output units: the returned vector is empty and the
    sum of its exponentials is zero. *)
Lemma forward_pass_no_class_not_normalised :
  forward_pass no_class_params [1; 2] = Some []
  /\ sum (map exp []) = 0
  /\ ~ (forall ps x lp,
          forward_pass ps x = Some lp -> sum (map exp lp) = 1).
Proof.
  assert (E : forward_pass no_class_params [1; 2] = Some [])
    by reflexivity.
  split; [exact E|]. split; [reflexivity|].
  intros H. specialize (H _ _ _ E). simpl in H. lra.
Qed.

(** C1, amended: whenever [forward_pass] returns a non-empty vector of
    log-probabilities (the last layer has at least one output unit),
    the exponentials of its entries sum to one. *)
Theorem forward_pass_normalised (ps : params) (x lp : vector) :
  forward_pass ps x = Some lp -> lp <> [] -> sum (map exp lp) = 1.
Proof.
  intros H Hne. destruct (forward_pass_inv ps x lp H) as (logits & ->).
  apply log_softmax_normalised. intros ->. now apply Hne.
Qed.

Lemma forward_pass_normalised_witness :
  exists lp, forward_pass two_class_params [1; 2] = Some lp
             /\ lp <> [] /\ sum (map exp lp) = 1.
Proof.
  destruct (forward_pass_total two_class_params [1; 2] 2) as (lp & E & L);
    [discriminate | reflexivity |].
  assert (Hne : lp <> []) by (intros ->; discriminate).
  exists lp. split; [exact E|]. split; [exact Hne|].
  exact (forward_pass_normalised two_class_params [1; 2] lp E Hne).
Defined.

(** ** Arg-max *)

Lemma argmax_from_spec (l : vector) :
  forall (bi : nat) (b : R) (i : nat),
    (argmax_from bi b i l = bi /\ Forall (fun x => x <= b) l)
    \/ (exists k, argmax_from bi b i l = (i + k)%nat
                  /\ (k < length l)%nat
                  /\ b < nth k l 0
                  /\ (forall j, (j < length l)%nat -> nth j l 0 <= nth k l 0)
                  /\ (forall j, (j < k)%nat -> nth j l 0 < nth k l 0)).
Proof.
  induction l as [|x t IH]; intros bi b i; simpl.
  - left. split; [reflexivity | constructor].
  - destruct (Rlt_dec b x) as [Hlt|Hge].
    + right.
      destruct (IH i x (S i))
        as [(E & Hall) | (k & E & Hk & Hb & Hmax & Hfirst)].
      * exists 0%nat. rewrite E.
        split; [lia|]. split; [lia|]. split; [exact Hlt|]. split.
        -- intros [|j] Hj; [lra|]. rewrite Forall_forall in Hall.
           apply Hall. apply nth_In. lia.
        -- intros j Hj. lia.
      * exists (S k). rewrite E.
        split; [lia|]. split; [lia|]. split; [lra|]. split.
        -- intros [|j] Hj; [lra|]. apply Hmax. lia.
        -- intros [|j] Hj; [lra|]. apply Hfirst. lia.
    + destruct (IH bi b (S i))
        as [(E & Hall) | (k & E & Hk & Hb & Hmax & Hfirst)].
      * left. split; [exact E|]. constructor; [lra | exact Hall].
      * right. exists (S k). rewrite E.
        split; [lia|]. split; [lia|]. split; [exact Hb|]. split.
        -- intros [|j] Hj; [lra|]. apply Hmax. lia.
        -- intros [|j] Hj; [lra|]. apply Hfirst. lia.
Qed.

(** [argmax] returns the first index of a largest entry. *)
Lemma argmax_is_argmax (l : vector) (i : nat) :
  argmax l = Some i -> is_argmax l i.
Proof.
  destruct l as [|x t]; [discriminate|]. simpl. intros [= <-].
  unfold is_argmax.
  destruct (argmax_from_spec t 0%nat x 1%nat)
    as [(E & Hall) | (k & E & Hk & Hb & Hmax & Hfirst)]; rewrite E.
  - split; [simpl; lia|]. split.
    + intros [|j] Hj; simpl in *; [lra|]. rewrite Forall_forall in Hall.
      apply Hall. apply nth_In. lia.
    + intros j Hj. lia.
  - split; [simpl; lia|]. split.
    + intros [|j] Hj; simpl in *; [lra|]. apply Hmax. lia.
    + intros [|j] Hj; simpl in *; [lra|]. apply Hfirst. lia.
Qed.

Lemma is_argmax_unique (l : vector) (i j : nat) :
  is_argmax l i -> is_argmax l j -> i = j.
Proof.
  intros (Hi & Hmi & Hfi) (Hj & Hmj & Hfj).
  destruct (Nat.lt_trichotomy i j) as [H | [H | H]]; [|exact H|].
  - specialize (Hfj i H). specialize (Hmi j Hj). lra.
  - specialize (Hfi j H). specialize (Hmj i Hi). lra.
Qed.

Lemma argmax_nonempty (l : vector) :
  l <> [] -> exists i, argmax l = Some i.
Proof. destruct l; [congruence | simpl; eauto]. Qed.

Lemma is_argmax_argmax (l : vector) (i : nat) :
  is_argmax l i -> argmax l = Some i.
Proof.
  intros H. destruct (argmax_nonempty l) as (j & E).
  - intros ->. destruct H as (H & _). simpl in H. lia.
  - rewrite E. f_equal. apply (is_argmax_unique l); [|exact H].
    now apply argmax_is_argmax.
Qed.

(** Arg-max does not see a common shift: the class predicted from the
    log-probabilities is the one predicted from the logits. *)
Lemma argmax_from_shift (c : R) (l : vector) :
  forall bi b i,
    argmax_from bi (b - c) i (map (fun x => x - c) l) = argmax_from bi b i l.
Proof.
  induction l as [|x t IH]; intros bi b i; simpl; [reflexivity|].
  destruct (Rlt_dec (b - c) (x - c)), (Rlt_dec b x); try lra; apply IH.
Qed.

Lemma argmax_shift (c : R) (l : vector) :
  argmax (map (fun x => x - c) l) = argmax l.
Proof.
  destruct l as [|x t]; simpl; [reflexivity|]. now rewrite argmax_from_shift.
Qed.

(** ** One-hot encoding *)

Lemma arange_length (k : Z) : length (arange k) = Z.to_nat k.
Proof. unfold arange. now rewrite length_map, length_seq. Qed.

Lemma one_hot_length (x : list Z) (k : Z) :
  length (one_hot x k) = length x
  /\ Forall (fun r => length r = Z.to_nat k) (one_hot x k).
Proof.
  unfold one_hot. split; [apply length_map|].
  apply Forall_forall. intros r Hr. apply in_map_iff in Hr.
  destruct Hr as (xi & <- & _). now rewrite length_map, arange_length.
Qed.

Lemma one_hot_row_nth (xi k : Z) (j : nat) :
  (j < Z.to_nat k)%nat ->
  nth j (map (fun j => if (xi =? j)%Z then 1 else 0) (arange k)) 0
  = if (xi =? Z.of_nat j)%Z then 1 else 0.
Proof.
  intros Hj. rewrite (nth_map_lt _ _ _ 0%Z) by now rewrite arange_length.
  unfold arange. rewrite (nth_map_lt _ _ _ 0%nat) by now rewrite length_seq.
  now rewrite seq_nth.
Qed.

Lemma one_hot_row_argmax (xi k : Z) :
  (0 <= xi < k)%Z ->
  argmax (map (fun j => if (xi =? j)%Z then 1 else 0) (arange k))
  = Some (Z.to_nat xi).
Proof.
  intros Hx. apply is_argmax_argmax.
  assert (Hlen : length (map (fun j => if (xi =? j)%Z then 1 else 0)
                             (arange k)) = Z.to_nat k)
    by now rewrite length_map, arange_length.
  assert (Hat : nth (Z.to_nat xi)
                    (map (fun j => if (xi =? j)%Z then 1 else 0) (arange k)) 0
                = 1).
  { rewrite one_hot_row_nth by lia. rewrite Z2Nat.id by lia.
    now rewrite Z.eqb_refl. }
  unfold is_argmax. rewrite Hlen, Hat. repeat split; [lia | |].
  - intros j Hj. rewrite one_hot_row_nth by assumption.
    destruct (xi =? Z.of_nat j)%Z; lra.
  - intros j Hj. rewrite one_hot_row_nth by lia.
    destruct (xi =? Z.of_nat j)%Z eqn:E; [apply Z.eqb_eq in E; lia | lra].
Qed.

(** C5. For [k > 0] classes and labels [0 <= x < k], the arg-max of
    every row of [one_hot(x, k)] is the label of that row. *)
Theorem argmax_one_hot (x : list Z) (k : Z) :
  (0 < k)%Z -> Forall (fun xi => 0 <= xi < k)%Z x ->
  argmax_axis1 (one_hot x k) = Some (map Z.to_nat x).
Proof.
  intros _ Hx. unfold argmax_axis1, one_hot.
  induction Hx as [|xi x Hxi _ IH]; [reflexivity|].
  simpl. rewrite (one_hot_row_argmax xi k Hxi). simpl.
  simpl in IH. rewrite IH. reflexivity.
Qed.

Lemma argmax_one_hot_witness :
  argmax_axis1 (one_hot [7; 0; 9]%Z 10) = Some [7; 0; 9]%nat.
Proof.
  apply (argmax_one_hot [7; 0; 9]%Z 10); [lia|].
  repeat constructor; lia.
Defined.

(** ** Parameter initialisation *)

Lemma combine_map_seq {A B : Type} (a : list A) (b : list B) (da : A) (db : B) :
  combine a b
  = map (fun i => (nth i a da, nth i b db))
        (seq 0 (Nat.min (length a) (length b))).
Proof.
  revert b. induction a as [|x a IH]; intros [|y b]; simpl; try reflexivity.
  rewrite <- seq_shift, map_map. f_equal. apply IH.
Qed.

Lemma removelast_length {A : Type} (l : list A) :
  length (removelast l) = (length l - 1)%nat.
Proof.
  induction l as [|x [|y l] IH]; simpl in *; try reflexivity.
  rewrite IH. lia.
Qed.

Lemma removelast_nth {A : Type} (l : list A) (d : A) (i : nat) :
  (i < length l - 1)%nat -> nth i (removelast l) d = nth i l d.
Proof.
  revert i. induction l as [|x [|y l] IH]; intros i Hi; simpl in *; try lia.
  destruct i as [|i]; [reflexivity|]. apply IH. lia.
Qed.

Lemma tl_nth {A : Type} (l : list A) (d : A) (i : nat) :
  nth i (tl l) d = nth (S i) l d.
Proof. destruct l; simpl; [now destruct i | reflexivity]. Qed.

Lemma tl_length {A : Type} (l : list A) :
  length (tl l) = (length l - 1)%nat.
Proof. destruct l; simpl; lia. Qed.

Section InitialisationFacts.

Variable key : Type.
Variable subkey : key -> nat -> nat -> key.
Variable normal : key -> list nat -> nat -> R.

Lemma split_length (k : key) (num : nat) :
  length (split key subkey k num) = num.
Proof. unfold split. now rewrite length_map, length_seq. Qed.

Lemma split_nth (k d : key) (num i : nat) :
  (i < num)%nat -> nth i (split key subkey k num) d = subkey k num i.
Proof.
  intros Hi. unfold split.
  rewrite (nth_map_lt _ _ _ 0%nat) by now rewrite length_seq.
  now rewrite seq_nth.
Qed.

(** The list comprehension of [initialize_mlp], layer by layer: the
    [i]-th layer is initialised from the widths [sizes[i]] and
    [sizes[i+1]] and the [i]-th of the [len(sizes)] keys. *)
Lemma initialize_mlp_layers (sizes : list nat) (k : key) :
  initialize_mlp key subkey normal sizes k
  = map (fun i => initialize_layer key subkey normal
                    (nth i sizes 0%nat) (nth (S i) sizes 0%nat)
                    (subkey k (length sizes) i) (1 / 100))
        (seq 0 (length sizes - 1)).
Proof.
  unfold initialize_mlp, zip3.
  rewrite (combine_map_seq _ _ (0%nat, 0%nat) k).
  rewrite length_combine, removelast_length, tl_length, split_length.
  replace (Nat.min (Nat.min (length sizes - 1) (length sizes - 1))
                   (length sizes))
    with (length sizes - 1)%nat by lia.
  rewrite map_map. apply map_ext_in. intros i Hi.
  apply in_seq in Hi.
  rewrite combine_nth by now rewrite removelast_length, tl_length.
  rewrite removelast_nth, tl_nth, split_nth by lia. reflexivity.
Qed.

(** C6. For widths [sizes] of length [n >= 1], [initialize_mlp] returns
    [n - 1] pairs; the [i]-th has a weight of shape
    [(sizes[i+1], sizes[i])] and a bias of shape [(sizes[i+1],)], and
    every entry is [1e-2] times the entry of the Gaussian sample that
    [random.normal] draws, for that shape, under a key of its own. *)
Theorem initialize_mlp_shapes (sizes : list nat) (k : key) :
  (1 <= length sizes)%nat ->
  let ps := initialize_mlp key subkey normal sizes k in
  length ps = (length sizes - 1)%nat
  /\ forall i, (i < length sizes - 1)%nat ->
       let m := nth i sizes 0%nat in
       let n := nth (i + 1) sizes 0%nat in
       let k_i := subkey k (length sizes) i in
       exists w b,
         nth_error ps i = Some (w, b)
         /\ nrows w = n /\ ncols w = m /\ length b = n
         /\ (forall r c,
               coef w r c
               = 1 / 100 * normal (subkey k_i 2 0) [n; m] (r * m + c))
         /\ (forall r, (r < n)%nat ->
               nth r b 0 = 1 / 100 * normal (subkey k_i 2 1) [n] r).
Proof.
  intros _ ps. subst ps. rewrite initialize_mlp_layers.
  split; [now rewrite length_map, length_seq|].
  intros i Hi m n k_i.
  eexists _, _. split.
  - rewrite nth_error_map, nth_error_nth' with (d := 0%nat)
      by now rewrite length_seq.
    rewrite seq_nth by assumption. simpl. unfold initialize_layer.
    replace (S i) with (i + 1)%nat by lia. reflexivity.
  - simpl. unfold scale_vector, normal_vector.
    rewrite !length_map, length_seq.
    repeat split; try reflexivity.
    intros r Hr.
    rewrite (nth_map_lt _ _ _ 0) by now rewrite length_map, length_seq.
    rewrite (nth_map_lt _ _ _ 0%nat) by now rewrite length_seq.
    now rewrite seq_nth.
Qed.

End InitialisationFacts.

(** The widths of the notebook, with numbered keys. *)
Lemma initialize_mlp_shapes_witness :
  length (initialize_mlp nat sample_subkey sample_normal layer_sizes 1%nat)
  = 3%nat.
Proof.
  assert (H : (1 <= length layer_sizes)%nat) by (simpl; lia).
  exact (proj1 (initialize_mlp_shapes nat sample_subkey sample_normal
                                      layer_sizes 1%nat H)).
Defined.

(** ** Two runs of the initialisation *)

Lemma map_nth_seq {A : Type} (l : list A) (d : A) :
  map (fun i => nth i l d) (seq 0 (length l)) = l.
Proof.
  induction l as [|a l IH]; [reflexivity|].
  cbn [length seq map nth]. rewrite <- seq_shift, map_map.
  f_equal. exact IH.
Qed.

Section InitialisationRunFacts.

Variable World : Type.
Variable key : Type.
Variable random_split : key -> nat -> World -> list key * World.
Variable random_normal : key -> list nat -> World -> (nat -> R) * World.

(** The contract of [jax.random]: the keys of a split and the entries
    of a sample are functions of the key (and of the number of keys, or
    the shape), whatever the world the call happens in. *)
Hypothesis split_pure :
  forall k num w w',
    fst (random_split k num w) = fst (random_split k num w').
Hypothesis split_length :
  forall k num w, length (fst (random_split k num w)) = num.
Hypothesis normal_pure :
  forall k shape w w',
    fst (random_normal k shape w) = fst (random_normal k shape w').

Local Abbreviation init_layer_run :=
  (initialize_layer_run World key random_split random_normal).
Local Abbreviation init_run :=
  (initialize_mlp_run World key random_split random_normal).
Local Abbreviation subkey0 := (subkey_at World key random_split).
Local Abbreviation normal0 := (normal_at World key random_normal).

Lemma split_at (w0 w : World) (k : key) (num : nat) :
  fst (random_split k num w) = split key (subkey0 w0) k num.
Proof.
  unfold split, subkey_at.
  rewrite <- (split_length k num w0) at 2. rewrite map_nth_seq.
  apply split_pure.
Qed.

(** In whatever world it runs, [initialize_layer] returns the layer the
    key determines. *)
Lemma initialize_layer_run_pure (w0 : World) (m n : nat) (k : key)
      (scale : R) (w : World) :
  exists w',
    init_layer_run m n k scale w
    = Some (initialize_layer key (subkey0 w0) (normal0 w0) m n k scale, w').
Proof.
  unfold initialize_layer_run, run_bind, run_call.
  pose proof (split_at w0 w k 2) as Hs.
  destruct (random_split k 2 w) as [ks w1]. simpl fst in Hs.
  unfold split in Hs. simpl in Hs. subst ks.
  pose proof (normal_pure (subkey0 w0 k 2 0) [n; m] w1 w0) as Hw.
  destruct (random_normal (subkey0 w0 k 2 0) [n; m] w1) as [wn w2].
  simpl fst in Hw. subst wn.
  pose proof (normal_pure (subkey0 w0 k 2 1) [n] w2 w0) as Hb.
  destruct (random_normal (subkey0 w0 k 2 1) [n] w2) as [bn w3].
  simpl fst in Hb. subst bn.
  exists w3. reflexivity.
Qed.

Lemma run_mapM_pure {A B : Type} (f : A -> Run World B) (g : A -> B) :
  (forall a w, exists w', f a w = Some (g a, w')) ->
  forall l w, exists w', run_mapM World f l w = Some (map g l, w').
Proof.
  intros Hf. induction l as [|a l IH]; intros w.
  - exists w. reflexivity.
  - simpl. unfold run_bind. destruct (Hf a w) as (w1 & ->).
    destruct (IH w1) as (w2 & ->). exists w2. reflexivity.
Qed.

(** In whatever world it runs, [initialize_mlp] returns the parameter
    list the widths and the key determine. *)
Lemma initialize_mlp_run_pure (w0 : World) (sizes : list nat) (k : key)
      (w : World) :
  exists w',
    init_run sizes k w
    = Some (initialize_mlp key (subkey0 w0) (normal0 w0) sizes k, w').
Proof.
  unfold initialize_mlp_run, run_bind, run_call.
  pose proof (split_at w0 w k (length sizes)) as Hs.
  destruct (random_split k (length sizes) w) as [keys w1].
  simpl fst in Hs. subst keys. unfold initialize_mlp.
  apply (run_mapM_pure
           (fun mnk : nat * nat * key =>
              let '(m, n, k') := mnk in init_layer_run m n k' (1 / 100))
           (fun mnk : nat * nat * key =>
              let '(m, n, k') := mnk in
              initialize_layer key (subkey0 w0) (normal0 w0) m n k'
                               (1 / 100))).
  intros [[m n] k'] w2. apply initialize_layer_run_pure.
Qed.

(** C7. Two runs of [initialize_mlp] with the same key and the same
    widths return the same parameter list, in whatever worlds they
    happen and whatever the calls do to these worlds: the result is
    the one the key determines through [random.split] and
    [random.normal], and nothing else of the world is read. *)
Theorem initialize_mlp_run_deterministic (sizes1 sizes2 : list nat)
        (k1 k2 : key) (w1 w2 : World) :
  sizes1 = sizes2 -> k1 = k2 ->
  exists ps w1' w2',
    init_run sizes1 k1 w1 = Some (ps, w1')
    /\ init_run sizes2 k2 w2 = Some (ps, w2')
    /\ ps = initialize_mlp key (subkey0 w1) (normal0 w1) sizes1 k1.
Proof.
  intros <- <-.
  destruct (initialize_mlp_run_pure w1 sizes1 k1 w1) as (w1' & E1).
  destruct (initialize_mlp_run_pure w1 sizes1 k1 w2) as (w2' & E2).
  eexists _, w1', w2'. split; [exact E1|]. split; [exact E2 | reflexivity].
Qed.

End InitialisationRunFacts.

Lemma sample_random_split_length (k num w : nat) :
  length (fst (sample_random_split k num w)) = num.
Proof. unfold sample_random_split. simpl. now rewrite length_map, length_seq. Qed.

Lemma initialize_mlp_run_deterministic_witness :
  exists ps w1' w2',
    initialize_mlp_run nat nat sample_random_split sample_random_normal
                       [3; 2; 4]%nat 1%nat 0%nat
    = Some (ps, w1')
    /\ initialize_mlp_run nat nat sample_random_split sample_random_normal
                          [3; 2; 4]%nat 1%nat 7%nat
       = Some (ps, w2').
Proof.
  destruct (initialize_mlp_run_deterministic nat nat sample_random_split
              sample_random_normal
              (fun k num w w' => eq_refl)
              sample_random_split_length
              (fun k shape w w' => eq_refl)
              [3; 2; 4]%nat [3; 2; 4]%nat 1%nat 1%nat 0%nat 7%nat
              eq_refl eq_refl)
    as (ps & w1' & w2' & E1 & E2 & _).
  exists ps, w1', w2'. split; assumption.
Defined.

(** ** Loaders: batches of a permuted dataset *)

Lemma flat_map_map {A B C : Type} (f : B -> list C) (g : A -> B)
      (l : list A) :
  flat_map f (map g l) = flat_map (fun a => f (g a)) l.
Proof. induction l as [|a l IH]; simpl; [reflexivity | now rewrite IH]. Qed.

Lemma select_seq {A : Type} (l : list A) :
  select l (seq 0 (length l)) = l.
Proof.
  unfold select. induction l as [|a l IH]; [reflexivity|].
  simpl length. rewrite <- cons_seq, <- seq_shift. simpl.
  rewrite flat_map_map. simpl. now rewrite IH.
Qed.

Lemma select_perm {A : Type} (l : list A) (order : list nat) :
  Permutation order (seq 0 (length l)) -> Permutation (select l order) l.
Proof.
  intros H. rewrite <- (select_seq l) at 2. unfold select.
  now apply Permutation_flat_map.
Qed.

Lemma filter_perm {A : Type} (f : A -> bool) (l l' : list A) :
  Permutation l l' -> Permutation (filter f l) (filter f l').
Proof.
  induction 1 as [|x l l' _ IH|x y l|l l' l'' _ IH1 _ IH2]; simpl.
  - constructor.
  - destruct (f x); [now constructor | assumption].
  - destruct (f x), (f y); try reflexivity. constructor.
  - now transitivity (filter f l').
Qed.

Lemma chunks_fuel_concat {A : Type} (fuel n : nat) (l : list A) :
  (0 < n)%nat -> (length l <= fuel)%nat ->
  concat (chunks_fuel fuel n l) = l.
Proof.
  intros Hn. revert l. induction fuel as [|fuel IH]; intros l Hl.
  - destruct l; [reflexivity | simpl in Hl; lia].
  - destruct l as [|a l]; [reflexivity|].
    change (chunks_fuel (S fuel) n (a :: l))
      with (firstn n (a :: l) :: chunks_fuel fuel n (skipn n (a :: l))).
    simpl concat. rewrite IH.
    + apply firstn_skipn.
    + rewrite length_skipn. cbn [length] in *. lia.
Qed.

Lemma chunks_concat {A : Type} (n : nat) (l : list A) :
  (0 < n)%nat -> concat (chunks n l) = l.
Proof. intros Hn. now apply chunks_fuel_concat. Qed.

Lemma chunks_fuel_length {A : Type} (fuel n : nat) (l l' : list A) :
  length l = length l' ->
  length (chunks_fuel fuel n l) = length (chunks_fuel fuel n l').
Proof.
  revert l l'. induction fuel as [|fuel IH]; intros l l' E; [reflexivity|].
  destruct l as [|a l], l' as [|a' l']; try discriminate; [reflexivity|].
  change (S (length (chunks_fuel fuel n (skipn n (a :: l))))
          = S (length (chunks_fuel fuel n (skipn n (a' :: l'))))).
  f_equal. apply IH. rewrite !length_skipn. now rewrite E.
Qed.

(** The number of batches depends on the number of examples alone. *)
Lemma chunks_length {A : Type} (n : nat) (l l' : list A) :
  length l = length l' -> length (chunks n l) = length (chunks n l').
Proof.
  intros E. unfold chunks. rewrite E. now apply chunks_fuel_length.
Qed.

Lemma chunks_Forall {A : Type} (P : A -> Prop) (n : nat) (l : list A) :
  (0 < n)%nat -> Forall P l -> Forall (Forall P) (chunks n l).
Proof.
  intros Hn Hl. apply Forall_forall. intros c Hc.
  apply Forall_forall. intros a Ha. rewrite Forall_forall in Hl.
  apply Hl. rewrite <- (chunks_concat n l Hn). apply in_concat. eauto.
Qed.

Lemma count_correct_concat (ps : params) (bs : list batch) :
  count_correct ps (concat bs) = list_sum (map (count_correct ps) bs).
Proof.
  unfold count_correct. induction bs as [|b bs IH]; [reflexivity|].
  simpl. now rewrite filter_app, length_app, IH.
Qed.

(** ** Accuracy *)

Lemma mapM_map {A B C : Type} (f : B -> option C) (g : A -> B) (l : list A) :
  mapM f (map g l) = mapM (fun a => f (g a)) l.
Proof.
  induction l as [|a l IH]; simpl; [reflexivity | now rewrite IH].
Qed.

Lemma mapM_Some {A B : Type} (f : A -> option B) (g : A -> B) (l : list A) :
  Forall (fun a => f a = Some (g a)) l -> mapM f l = Some (map g l).
Proof.
  induction 1 as [|a l Ha _ IH]; simpl; [reflexivity|].
  now rewrite Ha, IH.
Qed.

Lemma reshape_Some (d : list image) :
  Forall (fun im => length im = (28 * 28)%nat) d -> reshape d = Some d.
Proof.
  intros H. unfold reshape.
  replace (forallb (fun im => (length im =? 28 * 28)%nat) d) with true;
    [reflexivity|].
  symmetry. apply forallb_forall. rewrite Forall_forall in H.
  intros im Him. apply Nat.eqb_eq. now apply H.
Qed.

Lemma one_hot_rows_argmax (x : list Z) (k : Z) :
  Forall (fun xi => 0 <= xi < k)%Z x ->
  argmax_axis1 (one_hot x k) = Some (map Z.to_nat x).
Proof.
  intros Hx. unfold argmax_axis1, one_hot. rewrite mapM_map.
  apply mapM_Some. eapply Forall_impl; [|exact Hx].
  intros xi Hxi. now apply one_hot_row_argmax.
Qed.

(** On well-shaped parameters with at least one output unit, every
    image of the right size has a predicted class. *)
Lemma predicted_class_total (ps : params) (k : nat) (im : vector) :
  ps <> [] -> shape_chain (length im) ps = Some k -> (0 < k)%nat ->
  exists out c, forward_pass ps im = Some out /\ argmax out = Some c
                /\ predicted_class ps im = Some c.
Proof.
  intros Hne Hs Hk.
  destruct (forward_pass_total ps im k Hne Hs) as (out & E & L).
  destruct (argmax_nonempty out) as (c & Ec).
  { intros ->. simpl in L. lia. }
  exists out, c. unfold predicted_class. rewrite E. simpl. auto.
Qed.

Section AccuracyFacts.

Variable ps : params.
Variable k : nat.
Hypothesis ps_nonempty : ps <> [].
Hypothesis ps_shape : shape_chain (28 * 28) ps = Some k.
Hypothesis k_pos : (0 < k)%nat.

Lemma batch_forward_Some (b : batch) :
  Forall image_ok b ->
  batch_forward ps (data b) = Some (map (out_of ps) (data b))
  /\ argmax_axis1 (map (out_of ps) (data b)) = Some (map (class_of ps) (data b)).
Proof.
  intros Hb. unfold batch_forward, argmax_axis1, data.
  split.
  - apply mapM_Some. apply Forall_map. eapply Forall_impl; [|exact Hb].
    intros e He. unfold image_ok in He.
    destruct (predicted_class_total ps k (fst e)) as (out & c & E & _);
      try assumption; [now rewrite He|].
    unfold out_of. now rewrite E.
  - rewrite mapM_map. apply mapM_Some. apply Forall_map.
    eapply Forall_impl; [|exact Hb].
    intros e He. unfold image_ok in He.
    destruct (predicted_class_total ps k (fst e)) as (out & c & E & Ea & Ep);
      try assumption; [now rewrite He|].
    unfold out_of, class_of. now rewrite E, Ep.
Qed.

Lemma count_eq_correct (b : batch) :
  Forall image_ok b -> Forall label_ok b ->
  count_eq (map (class_of ps) (data b)) (map Z.to_nat (target b))
  = count_correct ps b.
Proof.
  unfold count_eq, count_correct, data, target.
  induction b as [|e b IH]; intros Hi Hl; [reflexivity|].
  inversion Hi as [|? ? He Hi']; inversion Hl as [|? ? Hle Hl']; subst.
  specialize (IH Hi' Hl').
  assert (Hb : (class_of ps (fst e) =? Z.to_nat (snd e))%nat = correct ps e).
  { unfold image_ok in He. unfold label_ok in Hle.
    destruct (predicted_class_total ps k (fst e)) as (out & c & _ & _ & Ep);
      try assumption; [now rewrite He|].
    unfold correct, class_of. rewrite Ep.
    destruct (Nat.eqb_spec c (Z.to_nat (snd e))) as [Ec|Ec];
      destruct (Z.eqb_spec (Z.of_nat c) (snd e)) as [Ez|Ez];
      try reflexivity; exfalso; lia. }
  cbn [map combine filter fst snd]. rewrite Hb.
  destruct (correct ps e); cbn [length]; now rewrite IH.
Qed.

(** One batch adds the number of its correctly predicted examples. *)
Lemma accuracy_batch_Some (acc_total : nat) (b : batch) :
  Forall image_ok b -> Forall label_ok b ->
  accuracy_batch ps acc_total b
  = Some (acc_total + count_correct ps b)%nat.
Proof.
  intros Hi Hl. unfold accuracy_batch.
  rewrite reshape_Some
    by (unfold data; apply Forall_map; exact Hi).
  simpl obind.
  rewrite one_hot_rows_argmax
    by (unfold target; apply Forall_map; exact Hl).
  simpl obind.
  destruct (batch_forward_Some b Hi) as (E1 & E2).
  rewrite E1. simpl obind. rewrite E2. simpl obind.
  now rewrite count_eq_correct.
Qed.

End AccuracyFacts.

(** *** The whole loader *)

(** The sampler of a shuffling loader visits every example once. *)
Hypothesis randperm_perm :
  forall n w, Permutation (fst (randperm n w)) (seq 0 n).

Lemma iter_spec (dl : DataLoader) (st : state) :
  exists order w',
    iter dl st = Some (chunks (batch_size dl) (select (dataset dl) order),
                       State w' (stdout st))
    /\ Permutation order (seq 0 (length (dataset dl))).
Proof.
  unfold iter, bind. destruct (shuffle dl).
  - unfold with_world.
    pose proof (randperm_perm (length (dataset dl)) (world st)) as Hp.
    destruct (randperm (length (dataset dl)) (world st)) as [order w'].
    exists order, w'. split; [reflexivity | exact Hp].
  - exists (seq 0 (length (dataset dl))), (world st).
    unfold ret. destruct st; simpl. split; reflexivity.
Qed.

(** One pass yields [len(data_loader)] batches. *)
Lemma iter_num_batches (dl : DataLoader) (st st' : state)
      (batches : list batch) :
  iter dl st = Some (batches, st') -> length batches = num_batches dl.
Proof.
  destruct (iter_spec dl st) as (order & w' & E & Hp). rewrite E.
  intros [= <- _]. unfold num_batches. apply chunks_length.
  apply Permutation_length. now apply select_perm.
Qed.

Lemma foldM_accuracy (ps : params) (k : nat) (batches : list batch)
      (acc : nat) (st : state) :
  ps <> [] -> shape_chain (28 * 28) ps = Some k -> (0 < k)%nat ->
  Forall (Forall image_ok) batches -> Forall (Forall label_ok) batches ->
  foldM (fun acc b => lift (accuracy_batch ps acc b)) batches acc st
  = Some ((acc + list_sum (map (count_correct ps) batches))%nat, st).
Proof.
  intros Hne Hs Hk Hi Hl. revert acc.
  induction batches as [|b bs IH]; intros acc; simpl.
  - unfold ret. do 2 f_equal. lia.
  - inversion Hi as [|? ? Hib Hi']; inversion Hl as [|? ? Hlb Hl']; subst.
    unfold bind, lift.
    rewrite (accuracy_batch_Some ps k Hne Hs Hk acc b Hib Hlb).
    rewrite (IH Hi' Hl'). do 2 f_equal. lia.
Qed.

(** The value of [accuracy]: batch by batch, in whatever order the
    sampler visits the examples, it counts the correctly predicted
    examples of the dataset and divides by their number; it prints
    nothing. *)
Lemma accuracy_value (ps : params) (k : nat) (dl : DataLoader) (st : state) :
  ps <> [] -> shape_chain (28 * 28) ps = Some k -> (0 < k)%nat ->
  loader_ok dl ->
  exists w',
    accuracy ps dl st
    = Some (fraction_correct ps dl, State w' (stdout st)).
Proof.
  unfold fraction_correct.
  intros Hne Hs Hk (Hb & Hd & Hi & Hl).
  destruct (iter_spec dl st) as (order & w' & E & Hp).
  pose proof (select_perm (dataset dl) order Hp) as Hsel.
  exists w'. unfold accuracy, bind. rewrite E.
  rewrite (foldM_accuracy ps k _ 0%nat _ Hne Hs Hk).
  - rewrite <- count_correct_concat, chunks_concat by assumption.
    replace (count_correct ps (select (dataset dl) order))
      with (count_correct ps (dataset dl)).
    + destruct (dataset dl) as [|e l] eqn:Ed; [congruence|]. reflexivity.
    + unfold count_correct. apply Permutation_length.
      apply filter_perm. now symmetry.
  - apply chunks_Forall; [assumption|].
    eapply Permutation_Forall; [symmetry; exact Hsel | exact Hi].
  - apply chunks_Forall; [assumption|].
    eapply Permutation_Forall; [symmetry; exact Hsel | exact Hl].
Qed.

Lemma filter_all {A : Type} (f : A -> bool) (l : list A) :
  (forall a, In a l -> f a = true) -> length (filter f l) = length l.
Proof.
  induction l as [|a l IH]; intros H; simpl; [reflexivity|].
  rewrite (H a) by now left. simpl. f_equal. apply IH.
  intros b Hb. apply H. now right.
Qed.

Lemma filter_none {A : Type} (f : A -> bool) (l : list A) :
  (forall a, In a l -> f a = false) -> length (filter f l) = 0%nat.
Proof.
  induction l as [|a l IH]; intros H; simpl; [reflexivity|].
  rewrite (H a) by now left. apply IH.
  intros b Hb. apply H. now right.
Qed.

(** C4. [accuracy] returns the fraction of the examples of the dataset
    whose predicted class, the arg-max of the log-probabilities of the
    forward pass, is their target class, accumulated over all batches
    of one pass; it is exactly 1 when every prediction matches and
    exactly 0 when none does. *)
Theorem accuracy_is_fraction_correct (ps : params) (k : nat)
        (dl : DataLoader) (st : state) :
  ps <> [] -> shape_chain (28 * 28) ps = Some k -> (0 < k)%nat ->
  loader_ok dl ->
  exists st',
    accuracy ps dl st
    = Some (INR (count_correct ps (dataset dl)) / INR (length (dataset dl)),
            st')
    /\ stdout st' = stdout st
    /\ ((forall e, In e (dataset dl) -> correct ps e = true) ->
        accuracy ps dl st = Some (1, st'))
    /\ ((forall e, In e (dataset dl) -> correct ps e = false) ->
        accuracy ps dl st = Some (0, st')).
Proof.
  intros Hne Hs Hk Hok.
  destruct (accuracy_value ps k dl st Hne Hs Hk Hok) as (w' & E).
  destruct Hok as (_ & Hd & _ & _).
  assert (Hlen : INR (length (dataset dl)) <> 0).
  { apply not_0_INR. destruct (dataset dl); [congruence | discriminate]. }
  exists (State w' (stdout st)). rewrite E. unfold fraction_correct.
  split; [reflexivity|]. split; [reflexivity|]. split; intros H.
  - unfold count_correct. rewrite (filter_all _ _ H).
    do 2 f_equal. now field.
  - unfold count_correct. rewrite (filter_none _ _ H).
    do 2 f_equal. simpl. now field.
Qed.

(** ** The training loop *)

Lemma bind_Some {A B : Type} (m : M A) (f : A -> M B) (st st' : state)
      (a : A) :
  m st = Some (a, st') -> bind m f st = f a st'.
Proof. intros E. unfold bind. now rewrite E. Qed.

Lemma with_world_spec {A : Type} (f : W -> A * W) (st : state) :
  exists a w', with_world f st = Some (a, State w' (stdout st)).
Proof.
  unfold with_world. destruct (f (world st)) as [a w']. eauto.
Qed.

Lemma mul_Some (u v : vector) :
  length u = length v -> exists r, mul u v = Some r.
Proof.
  intros E. unfold mul, broadcast. rewrite E, Nat.eqb_refl. eauto.
Qed.

Lemma mul2_Some (n : nat) (a b : list vector) :
  length a = length b ->
  Forall (fun r => length r = n) a -> Forall (fun r => length r = n) b ->
  exists r, mul2 a b = Some r.
Proof.
  intros E Ha Hb. unfold mul2, broadcast. rewrite E, Nat.eqb_refl.
  simpl obind. clear E. revert b Hb.
  induction Ha as [|u a Hu _ IH]; intros b Hb; [simpl; eauto|].
  destruct Hb as [|v b Hv Hb]; [simpl; eauto|].
  simpl. destruct (mul_Some u v) as (r & ->); [congruence|].
  simpl. destruct (IH b Hb) as (rs & ->). simpl. eauto.
Qed.

(** The optimizer keeps the network in shape: the parameters of a
    [good] state fit [28 * 28] inputs and [num_classes] outputs, and an
    update stays among the [good] states. *)
Hypothesis good_update :
  forall i g s, good s -> good (opt_update i g s).
Hypothesis good_params :
  forall s, good s ->
            get_params s <> []
            /\ shape_chain (28 * 28) (get_params s)
               = Some (Z.to_nat num_classes).
Hypothesis train_loader_ok : loader_ok train_loader.
Hypothesis test_loader_ok : loader_ok test_loader.

Lemma num_classes_pos : (0 < Z.to_nat num_classes)%nat.
Proof.
  destruct train_loader_ok as (_ & Hd & _ & Hl).
  destruct (dataset train_loader) as [|e l]; [congruence|].
  inversion Hl as [|? ? He _]. unfold label_ok in He. lia.
Qed.

Lemma loss_Some (ps : params) (b : batch) :
  ps <> [] -> shape_chain (28 * 28) ps = Some (Z.to_nat num_classes) ->
  Forall image_ok b ->
  exists v, loss ps (Flat (data b)) (one_hot (target b) num_classes)
            = Some v.
Proof.
  intros Hne Hs Hi. unfold loss. simpl batch_forward_tensor.
  destruct (batch_forward_Some ps _ Hne Hs num_classes_pos b Hi) as (E & _).
  rewrite E. simpl obind.
  destruct (mul2_Some (Z.to_nat num_classes) (map (out_of ps) (data b))
                      (one_hot (target b) num_classes)) as (r & ->).
  - destruct (one_hot_length (target b) num_classes) as (-> & _).
    unfold data, target. now rewrite !length_map.
  - unfold data. rewrite !Forall_map. eapply Forall_impl; [|exact Hi].
    intros e He. unfold image_ok in He.
    destruct (forward_pass_total ps (fst e) (Z.to_nat num_classes))
      as (lp & Elp & L); [assumption | now rewrite He |].
    unfold out_of. now rewrite Elp.
  - apply one_hot_length.
  - simpl. eauto.
Qed.

Lemma train_step_spec (l : loop) (b : batch) :
  inv l -> Forall image_ok b ->
  exists l1 v,
    train_step "MLP" l b = Some l1 /\ inv l1
    /\ train_loss l1 = train_loss l ++ [v]
    /\ log_acc_train l1 = log_acc_train l
    /\ log_acc_test l1 = log_acc_test l.
Proof.
  intros (Hg & Hp) Hi. destruct (good_params _ Hg) as (Hne & Hs).
  rewrite <- Hp in Hne, Hs.
  destruct (loss_Some (params_of l) b Hne Hs Hi) as (v & Ev).
  unfold train_step, input_of. simpl String.eqb.
  rewrite reshape_Some by (unfold data; apply Forall_map; exact Hi).
  simpl obind. unfold update, value_and_grad. rewrite Ev. simpl.
  eexists _, v. split; [reflexivity|]. unfold inv. simpl.
  repeat split. now apply good_update.
Qed.

Lemma train_steps_spec (batches : list batch) (l : loop) (st : state) :
  inv l -> Forall (Forall image_ok) batches ->
  exists l1 losses,
    foldM (fun l b => lift (train_step "MLP" l b)) batches l st
    = Some (l1, st)
    /\ inv l1
    /\ train_loss l1 = train_loss l ++ losses
    /\ length losses = length batches
    /\ log_acc_train l1 = log_acc_train l
    /\ log_acc_test l1 = log_acc_test l.
Proof.
  intros Hinv Hb. revert l Hinv.
  induction Hb as [|b bs Hi _ IH]; intros l Hinv.
  - exists l, []. simpl. unfold ret. rewrite app_nil_r.
    repeat split; auto; apply Hinv.
  - destruct (train_step_spec l b Hinv Hi) as (l1 & v & E & Hinv1 & T1 & A1 & B1).
    destruct (IH l1 Hinv1) as (l2 & losses & E2 & Hinv2 & T2 & L2 & A2 & B2).
    exists l2, (v :: losses). simpl foldM.
    assert (El : lift (train_step "MLP" l b) st = Some (l1, st))
      by (unfold lift; now rewrite E).
    rewrite (bind_Some _ _ _ _ _ El), E2.
    split; [reflexivity|]. split; [assumption|].
    split; [rewrite T2, T1, <- app_assoc; reflexivity|].
    split; [simpl; lia|]. split; congruence.
Qed.

(** One epoch: a loss per training batch, then the two accuracies of
    the updated parameters, logged and printed on one line. *)
Lemma run_epoch_spec (l : loop) (epoch : nat) (st : state) :
  inv l ->
  exists l1 st1 losses t,
    run_epoch "MLP" l epoch st = Some (l1, st1)
    /\ inv l1
    /\ train_loss l1 = train_loss l ++ losses
    /\ length losses = num_batches train_loader
    /\ log_acc_train l1
       = log_acc_train l ++ [fraction_correct (params_of l1) train_loader]
    /\ log_acc_test l1
       = log_acc_test l ++ [fraction_correct (params_of l1) test_loader]
    /\ stdout st1
       = stdout st
         ++ [status_line (epoch + 1) t
               (fraction_correct (params_of l1) train_loader)
               (fraction_correct (params_of l1) test_loader)].
Proof.
  intros Hinv. unfold run_epoch.
  destruct (with_world_spec time_time st) as (t0 & w0 & E0).
  rewrite (bind_Some _ _ _ _ _ E0).
  destruct (iter_spec train_loader (State w0 (stdout st)))
    as (order & w1 & E1 & Hp).
  pose proof (iter_num_batches _ _ _ _ E1) as Hnb.
  rewrite (bind_Some _ _ _ _ _ E1). cbn [stdout] in *.
  destruct train_loader_ok as (Hbs & _ & Hi & _).
  destruct (train_steps_spec
              (chunks (batch_size train_loader)
                      (select (dataset train_loader) order))
              l (State w1 (stdout st)) Hinv)
    as (l1 & losses & E2 & Hinv1 & T & L & A & B).
  { apply chunks_Forall; [assumption|].
    eapply Permutation_Forall; [symmetry; apply select_perm; exact Hp|].
    exact Hi. }
  rewrite (bind_Some _ _ _ _ _ E2).
  destruct (with_world_spec time_time (State w1 (stdout st)))
    as (t1 & w2 & E3).
  rewrite (bind_Some _ _ _ _ _ E3). cbn [stdout] in *.
  destruct Hinv1 as (Hg1 & Hp1).
  destruct (good_params _ Hg1) as (Hne & Hs). rewrite <- Hp1 in Hne, Hs.
  destruct (accuracy_value (params_of l1) _ train_loader
              (State w2 (stdout st)) Hne Hs num_classes_pos train_loader_ok)
    as (w3 & E4).
  rewrite (bind_Some _ _ _ _ _ E4). cbn [stdout] in *.
  destruct (accuracy_value (params_of l1) _ test_loader
              (State w3 (stdout st)) Hne Hs num_classes_pos test_loader_ok)
    as (w4 & E5).
  rewrite (bind_Some _ _ _ _ _ E5). cbn [stdout] in *.
  unfold bind, print, ret. cbn [stdout world].
  eexists _, _, losses, (t1 - t0). split; [reflexivity|].
  cbn [params_of opt_state_of train_loss log_acc_train log_acc_test stdout].
  split; [split; assumption|]. split; [assumption|].
  split; [congruence|]. split; [now rewrite A|]. split; [now rewrite B|].
  reflexivity.
Qed.

(** The epochs [a, a + 1, ..., a + n - 1], run one after the other. *)
Lemma run_epochs_spec (n : nat) :
  forall (a : nat) (l : loop) (st : state),
    inv l ->
    exists l' st' tl la lt ts,
      foldM (run_epoch "MLP") (seq a n) l st = Some (l', st')
      /\ inv l'
      /\ train_loss l' = train_loss l ++ tl
      /\ length tl = (n * num_batches train_loader)%nat
      /\ log_acc_train l' = log_acc_train l ++ la /\ length la = n
      /\ log_acc_test l' = log_acc_test l ++ lt /\ length lt = n
      /\ length ts = n
      /\ stdout st'
         = stdout st
           ++ map (fun i => status_line (a + i + 1) (nth i ts 0)
                                        (nth i la 0) (nth i lt 0))
                  (seq 0 n).
Proof.
  induction n as [|n IH]; intros a l st Hinv.
  - exists l, st, [], [], [], []. simpl. unfold ret.
    rewrite !app_nil_r. repeat split; auto; apply Hinv.
  - destruct (run_epoch_spec l a st Hinv)
      as (l1 & st1 & losses & t & E1 & Hinv1 & T1 & L1 & A1 & B1 & O1).
    destruct (IH (S a) l1 st1 Hinv1)
      as (l' & st' & tl & la & lt & ts
          & E & Hinv' & T & LT & A & LA & B & LB & LS & O).
    exists l', st', (losses ++ tl),
      (fraction_correct (params_of l1) train_loader :: la),
      (fraction_correct (params_of l1) test_loader :: lt),
      (t :: ts).
    simpl seq. simpl foldM. rewrite (bind_Some _ _ _ _ _ E1), E.
    split; [reflexivity|]. split; [assumption|].
    split; [rewrite T, T1, <- app_assoc; reflexivity|].
    split; [rewrite length_app; lia|].
    split; [rewrite A, A1, <- app_assoc; reflexivity|].
    split; [simpl; lia|].
    split; [rewrite B, B1, <- app_assoc; reflexivity|].
    split; [simpl; lia|]. split; [simpl; lia|].
    rewrite O, O1, <- app_assoc. f_equal.
    cbn [seq map app nth]. rewrite <- seq_shift, map_map.
    replace (a + 0 + 1)%nat with (a + 1)%nat by lia. f_equal.
    apply map_ext. intros i. cbn [nth].
    replace (a + S i + 1)%nat with (S a + i + 1)%nat by lia. reflexivity.
Qed.

(** The whole run: the two accuracies of the initial parameters, then
    the epochs. *)
Lemma run_spec (num_epochs : nat) (opt_state : opt_state_t) (st : state) :
  good opt_state ->
  exists tl la lt st' ts,
    run_mnist_training_loop num_epochs opt_state "MLP" st
    = Some ((tl, fraction_correct (get_params opt_state) train_loader :: la,
             fraction_correct (get_params opt_state) test_loader :: lt), st')
    /\ length tl = (num_epochs * num_batches train_loader)%nat
    /\ length la = num_epochs /\ length lt = num_epochs
    /\ length ts = num_epochs
    /\ stdout st'
       = stdout st
         ++ map (fun i => status_line (i + 1) (nth i ts 0)
                                      (nth i la 0) (nth i lt 0))
                (seq 0 num_epochs).
Proof.
  intros Hg. unfold run_mnist_training_loop.
  destruct (good_params _ Hg) as (Hne & Hs).
  destruct (accuracy_value (get_params opt_state) _ train_loader st
              Hne Hs num_classes_pos train_loader_ok) as (w1 & E1).
  rewrite (bind_Some _ _ _ _ _ E1).
  destruct (accuracy_value (get_params opt_state) _ test_loader
              (State w1 (stdout st)) Hne Hs num_classes_pos test_loader_ok)
    as (w2 & E2).
  rewrite (bind_Some _ _ _ _ _ E2). cbn [stdout].
  destruct (run_epochs_spec num_epochs 0
              (Loop (get_params opt_state) opt_state []
                    [fraction_correct (get_params opt_state) train_loader]
                    [fraction_correct (get_params opt_state) test_loader])
              (State w2 (stdout st)))
    as (l' & st' & tl & la & lt & ts
        & E & _ & T & LT & A & LA & B & LB & LS & O).
  { split; [exact Hg | reflexivity]. }
  rewrite (bind_Some _ _ _ _ _ E). unfold ret.
  cbn [train_loss log_acc_train log_acc_test stdout app] in *.
  exists tl, la, lt, st', ts. rewrite T, A, B.
  repeat split; assumption.
Qed.

(** *** The epochs, step by step *)














(** C10. The loop also evaluates both accuracies once before the first
    epoch, on the initial parameters: after [num_epochs] epochs each
    accuracy log has [num_epochs + 1] entries, the first of which is
    the accuracy of the initial parameters. *)
Theorem accuracy_logs_length (num_epochs : nat) (opt_state : opt_state_t)
        (st : state) :
  good opt_state ->
  exists tl la lt st',
    run_mnist_training_loop num_epochs opt_state "MLP" st
    = Some ((tl, la, lt), st')
    /\ length la = (num_epochs + 1)%nat
    /\ length lt = (num_epochs + 1)%nat
    /\ nth 0 la 0 = fraction_correct (get_params opt_state) train_loader
    /\ nth 0 lt 0 = fraction_correct (get_params opt_state) test_loader
    /\ (exists w', accuracy (get_params opt_state) train_loader st
                   = Some (nth 0 la 0, State w' (stdout st))).
Proof.
  intros Hg.
  destruct (run_spec num_epochs opt_state st Hg)
    as (tl & la & lt & st' & ts & E & LT & LA & LB & LS & O).
  exists tl, (fraction_correct (get_params opt_state) train_loader :: la),
    (fraction_correct (get_params opt_state) test_loader :: lt), st'.
  split; [exact E|]. split; [simpl; lia|]. split; [simpl; lia|].
  split; [reflexivity|]. split; [reflexivity|].
  destruct (good_params _ Hg) as (Hne & Hs).
  exact (accuracy_value (get_params opt_state) _ train_loader st
           Hne Hs num_classes_pos train_loader_ok).
Qed.

(** ** Further properties of the layers and of the forward pass *)

Lemma dot_Some_inv (w : matrix) (x y : vector) :
  dot w x = Some y ->
  ncols w = length x
  /\ y = map (fun i => inner (row w i) x) (seq 0 (nrows w)).
Proof.
  unfold dot. destruct (Nat.eqb_spec (ncols w) (length x)) as [E|E];
    [|discriminate].
  intros [= <-]. auto.
Qed.

Lemma dot_None (w : matrix) (x : vector) :
  ncols w <> length x -> dot w x = None.
Proof.
  intros H. unfold dot.
  destruct (Nat.eqb_spec (ncols w) (length x)); [contradiction|reflexivity].
Qed.

(** X9. When [relu_layer] returns, the input had as many entries as
    the weight has columns, and no activation is negative. *)
Theorem relu_layer_nonneg (p : layer) (x y : vector) :
  relu_layer p x = Some y ->
  ncols (fst p) = length x /\ Forall (fun a => 0 <= a) y.
Proof.
  unfold relu_layer. intros H. obind_inv H. obind_inv H.
  injection H as <-. apply dot_Some_inv in E. destruct E as (E & _).
  split; [exact E|]. unfold ReLU. apply Forall_forall.
  intros z Hz. apply in_map_iff in Hz. destruct Hz as (t & <- & _).
  apply Rmax_l.
Qed.

Lemma relu_layer_nonneg_witness :
  exists y, relu_layer (Matrix 1 2 (fun _ _ => 1), [-5]) [1; 2] = Some y
            /\ Forall (fun a => 0 <= a) y.
Proof.
  eexists. split; [reflexivity|].
  exact (proj2 (relu_layer_nonneg (Matrix 1 2 (fun _ _ => 1), [-5]) [1; 2]
                                  _ eq_refl)).
Defined.

(** X10. [forward_pass] raises on the empty parameter list, and on an
    input whose length is not the number of columns of the first
    weight. *)
Theorem forward_pass_raises (ps : params) (x : vector) :
  ps = [] \/ (exists w b t, ps = (w, b) :: t /\ ncols w <> length x) ->
  forward_pass ps x = None.
Proof.
  intros [-> | (w & b & t & -> & H)]; [reflexivity|].
  destruct t as [|l' t].
  - unfold forward_pass. simpl. now rewrite dot_None.
  - rewrite forward_pass_cons. unfold relu_layer. simpl fst.
    now rewrite dot_None.
Qed.

Lemma forward_pass_raises_witness :
  forward_pass two_class_params [1; 2; 3] = None.
Proof.
  apply forward_pass_raises. right.
  eexists _, _, _. split; [reflexivity|]. simpl. lia.
Defined.





Lemma mapM_Some_inv {A B : Type} (f : A -> option B) (l : list A)
      (r : list B) :
  mapM f l = Some r ->
  length r = length l
  /\ forall i a, nth_error l i = Some a ->
                 exists b, nth_error r i = Some b /\ f a = Some b.
Proof.
  revert r. induction l as [|a l IH]; intros r H; simpl in H.
  - injection H as <-. split; [reflexivity|].
    intros [|i] b Hb; discriminate.
  - obind_inv H. obind_inv H. injection H as <-.
    destruct (IH _ E0) as (L & Hn). split; [simpl; now rewrite L|].
    intros [|i] c Hc; simpl in *.
    + injection Hc as <-. eauto.
    + now apply Hn.
Qed.

Lemma mapM_None {A B : Type} (f : A -> option B) (l : list A) (a : A) :
  In a l -> f a = None -> mapM f l = None.
Proof.
  induction l as [|b l IH]; [contradiction|]. simpl.
  intros [-> | H] E.
  - now rewrite E.
  - destruct (f b); [|reflexivity]. simpl. now rewrite IH.
Qed.

(** The batched forward pass treats the rows one by one: row [i]
    of the result is the forward pass of row [i] of the batch, and the
    whole batch raises as soon as one row does. *)
Theorem batch_forward_rows (ps : params) (xs : list vector) :
  (forall out,
      batch_forward ps xs = Some out ->
      length out = length xs
      /\ forall i x, nth_error xs i = Some x ->
                     exists o, nth_error out i = Some o
                               /\ forward_pass ps x = Some o)
  /\ (forall x, In x xs -> forward_pass ps x = None ->
                batch_forward ps xs = None).
Proof.
  split.
  - intros out H. now apply mapM_Some_inv.
  - intros x Hx E. now apply (mapM_None _ _ x).
Qed.

Lemma batch_forward_rows_witness :
  batch_forward two_class_params [[1; 2]; [1; 2; 3]] = None.
Proof.
  apply (proj2 (batch_forward_rows two_class_params [[1; 2]; [1; 2; 3]])
               [1; 2; 3]).
  - simpl. auto.
  - reflexivity.
Defined.

(** ** Further properties of the one-hot encoding *)

Lemma map_zero {A : Type} (g : A -> R) (l : list A) :
  (forall a, In a l -> g a = 0) -> map g l = repeat 0 (length l).
Proof.
  induction l as [|a l IH]; intros H; simpl; [reflexivity|].
  rewrite (H a) by now left. f_equal. apply IH.
  intros b Hb. apply H. now right.
Qed.

Lemma one_hot_row_zero (xi k : Z) :
  ~ (0 <= xi < k)%Z ->
  map (fun j => if (xi =? j)%Z then 1 else 0) (arange k)
  = repeat 0 (Z.to_nat k).
Proof.
  intros H. rewrite <- (arange_length k). apply map_zero.
  intros j Hj. unfold arange in Hj. apply in_map_iff in Hj.
  destruct Hj as (n & <- & Hn). apply in_seq in Hn.
  destruct (Z.eqb_spec xi (Z.of_nat n)); [lia | reflexivity].
Qed.

Lemma argmax_repeat_zero (n : nat) :
  (0 < n)%nat -> argmax (repeat 0 n) = Some 0%nat.
Proof.
  intros Hn. apply is_argmax_argmax. unfold is_argmax.
  rewrite repeat_length. split; [exact Hn|]. split.
  - intros j Hj. rewrite !nth_repeat. lra.
  - intros j Hj. lia.
Qed.

(** X13. For [0 < k < 2^31] classes and labels that an [int32] array
    holds, the arg-max of a row of [one_hot(x, k)] is the label when it
    lies in [[0, k)]; for any other label the row is all zeros and the
    arg-max is 0. *)
Theorem argmax_one_hot_any_label (x : list Z) (k : Z) :
  (0 < k < 2 ^ 31)%Z -> Forall int32 x ->
  argmax_axis1 (one_hot x k) = Some (map (target_class_of k) x)
  /\ forall xi, In xi x -> ~ (0 <= xi < k)%Z ->
       In (repeat 0 (Z.to_nat k)) (one_hot x k)
       /\ target_class_of k xi = 0%nat.
Proof.
  intros (Hk & _) _. split.
  - unfold argmax_axis1, one_hot. rewrite mapM_map. apply mapM_Some.
    apply Forall_forall. intros xi _. unfold target_class_of.
    destruct (Z.leb_spec 0 xi); destruct (Z.ltb_spec xi k); simpl;
      try (rewrite one_hot_row_zero by lia; apply argmax_repeat_zero; lia).
    apply one_hot_row_argmax. lia.
  - intros xi Hin Hout. split.
    + unfold one_hot. apply in_map_iff. exists xi.
      split; [now apply one_hot_row_zero | exact Hin].
    + unfold target_class_of.
      destruct (Z.leb_spec 0 xi); destruct (Z.ltb_spec xi k); simpl;
        try reflexivity. lia.
Qed.

Lemma argmax_one_hot_any_label_witness :
  argmax_axis1 (one_hot [3; 10; -1]%Z 10) = Some [3; 0; 0]%nat.
Proof.
  assert (H : (0 < 10 < 2 ^ 31)%Z) by lia.
  assert (Hx : Forall int32 [3; 10; -1]%Z)
    by (repeat constructor; unfold int32; lia).
  exact (proj1 (argmax_one_hot_any_label [3; 10; -1]%Z 10 H Hx)).
Defined.

Lemma sum_repeat_zero (n : nat) : sum (repeat 0 n) = 0.
Proof. induction n as [|n IH]; simpl; [reflexivity | rewrite IH; ring]. Qed.

Lemma sum_one_hot_seq (xi : Z) (n a : nat) :
  sum (map (fun j => if (xi =? Z.of_nat j)%Z then 1 else 0) (seq a n))
  = if ((Z.of_nat a <=? xi) && (xi <? Z.of_nat (a + n)))%Z then 1 else 0.
Proof.
  revert a. induction n as [|n IH]; intros a.
  - simpl. rewrite Nat.add_0_r.
    destruct (Z.leb_spec (Z.of_nat a) xi);
      destruct (Z.ltb_spec xi (Z.of_nat a)); simpl; try reflexivity. lia.
  - simpl. rewrite IH.
    replace (a + S n)%nat with (S a + n)%nat by lia.
    destruct (Z.eqb_spec xi (Z.of_nat a));
      destruct (Z.leb_spec (Z.of_nat (S a)) xi);
      destruct (Z.leb_spec (Z.of_nat a) xi);
      destruct (Z.ltb_spec xi (Z.of_nat (S a + n))); simpl;
      try lra; try lia.
Qed.

(** X14. [one_hot(x, k)] has one row per label, each of [k] entries
    that are 0 or 1; the entries of a row sum to 1 when the label lies
    in [[0, k)] and to 0 otherwise. *)
Theorem one_hot_rows (x : list Z) (k : Z) :
  length (one_hot x k) = length x
  /\ forall i xi,
       nth_error x i = Some xi ->
       exists r, nth_error (one_hot x k) i = Some r
                 /\ length r = Z.to_nat k
                 /\ Forall (fun t => t = 0 \/ t = 1) r
                 /\ sum r = if ((0 <=? xi) && (xi <? k))%Z then 1 else 0.
Proof.
  split; [apply one_hot_length|].
  intros i xi Hi. unfold one_hot. rewrite nth_error_map, Hi. simpl.
  eexists. split; [reflexivity|]. split; [|split].
  - now rewrite length_map, arange_length.
  - apply Forall_forall. intros t Ht. apply in_map_iff in Ht.
    destruct Ht as (j & <- & _). destruct (xi =? j)%Z; auto.
  - unfold arange. rewrite map_map, sum_one_hot_seq.
    cbn [Nat.add Z.of_nat].
    destruct (Z.leb_spec 0 xi); destruct (Z.ltb_spec xi k);
      destruct (Z.ltb_spec xi (Z.of_nat (Z.to_nat k))); simpl;
      try reflexivity; lia.
Qed.

Lemma one_hot_rows_witness :
  exists r, nth_error (one_hot [2; 7]%Z 3) 1 = Some r /\ sum r = 0.
Proof.
  destruct (proj2 (one_hot_rows [2; 7]%Z 3) 1%nat 7%Z eq_refl)
    as (r & E & _ & _ & Hs).
  exists r. split; [exact E | exact Hs].
Defined.

(** ** The initialised network *)

Section InitialisedNetwork.

Variable key : Type.
Variable subkey : key -> nat -> nat -> key.
Variable normal : key -> list nat -> nat -> R.

Lemma shape_chain_initialised (sizes : list nat) (k : key) (n m : nat) :
  forall a,
    shape_chain (nth a sizes 0%nat)
      (map (fun i => initialize_layer key subkey normal
                       (nth i sizes 0%nat) (nth (S i) sizes 0%nat)
                       (subkey k n i) (1 / 100))
           (seq a m))
    = Some (nth (a + m) sizes 0%nat).
Proof.
  induction m as [|m IH]; intros a.
  - simpl. now rewrite Nat.add_0_r.
  - cbn [seq map shape_chain initialize_layer scale_matrix normal_matrix
         ncols nrows].
    assert (L : length (scale_vector (1 / 100)
                          (normal_vector key normal (subkey (subkey k n a) 2 1)
                                         (nth (S a) sizes 0%nat)))
                = nth (S a) sizes 0%nat).
    { unfold scale_vector, normal_vector.
      now rewrite !length_map, length_seq. }
    rewrite L, !Nat.eqb_refl. cbn [andb]. rewrite IH. f_equal. f_equal. lia.
Qed.

(** X15. On a width sequence with fewer than two entries
    [initialize_mlp] returns the empty parameter list, on which
    [forward_pass] raises for every input. *)
Theorem initialize_mlp_short (sizes : list nat) (k : key) (x : vector) :
  (length sizes <= 1)%nat ->
  initialize_mlp key subkey normal sizes k = []
  /\ forward_pass (initialize_mlp key subkey normal sizes k) x = None.
Proof.
  intros H.
  assert (E : initialize_mlp key subkey normal sizes k = []).
  { rewrite initialize_mlp_layers.
    replace (length sizes - 1)%nat with 0%nat by lia. reflexivity. }
  rewrite E. split; reflexivity.
Qed.

(** X16. The parameters [initialize_mlp] returns for at least two
    widths fit together: on an input of [sizes[0]] entries the forward
    pass returns [sizes[-1]] log-probabilities, normalised when the
    last width is positive. *)
Theorem initialize_mlp_forward_pass (sizes : list nat) (k : key)
        (x : vector) :
  (2 <= length sizes)%nat -> length x = nth 0 sizes 0%nat ->
  exists lp,
    forward_pass (initialize_mlp key subkey normal sizes k) x = Some lp
    /\ length lp = nth (length sizes - 1) sizes 0%nat
    /\ ((0 < nth (length sizes - 1) sizes 0)%nat ->
        sum (map exp lp) = 1).
Proof.
  intros Hn Hx.
  destruct (forward_pass_total
              (initialize_mlp key subkey normal sizes k) x
              (nth (length sizes - 1) sizes 0%nat)) as (lp & E & L).
  - intros E. apply (f_equal (@length layer)) in E.
    rewrite initialize_mlp_layers, length_map, length_seq in E.
    simpl in E. lia.
  - rewrite Hx, initialize_mlp_layers.
    now rewrite (shape_chain_initialised sizes k (length sizes)
                   (length sizes - 1) 0).
  - exists lp. split; [exact E|]. split; [exact L|].
    intros Hpos. destruct (forward_pass_inv _ _ _ E) as (logits & ->).
    apply log_softmax_normalised. intros ->. simpl in L. lia.
Qed.

End InitialisedNetwork.

Lemma initialize_mlp_short_witness :
  forward_pass (initialize_mlp nat sample_subkey sample_normal [784%nat]
                               1%nat) [1; 2]
  = None.
Proof.
  assert (H : (length [784%nat] <= 1)%nat) by (simpl; lia).
  exact (proj2 (initialize_mlp_short nat sample_subkey sample_normal
                                     [784%nat] 1%nat [1; 2] H)).
Defined.

Lemma initialize_mlp_forward_pass_witness :
  exists lp,
    forward_pass (initialize_mlp nat sample_subkey sample_normal
                                 [3; 2; 4]%nat 1%nat) [1; 2; 3]
    = Some lp
    /\ length lp = 4%nat.
Proof.
  assert (H2 : (2 <= length [3; 2; 4]%nat)%nat) by (simpl; lia).
  destruct (initialize_mlp_forward_pass nat sample_subkey sample_normal
              [3; 2; 4]%nat 1%nat [1; 2; 3] H2 eq_refl)
    as (lp & E & L & _).
  exists lp. split; [exact E | exact L].
Defined.

(** ** The batched ReLU layer *)

Lemma inner_comm (u v : vector) : inner u v = inner v u.
Proof.
  revert v. induction u as [|a u IH]; intros [|b v]; simpl;
    try reflexivity.
  rewrite IH. ring.
Qed.

Lemma row_length (w : matrix) (i : nat) : length (row w i) = ncols w.
Proof. unfold row. now rewrite length_map, length_seq. Qed.

Lemma mapM_ext_in {A B : Type} (f g : A -> option B) (l : list A) :
  (forall a, In a l -> f a = g a) -> mapM f l = mapM g l.
Proof.
  induction l as [|a l IH]; intros H; simpl; [reflexivity|].
  rewrite (H a) by now left. rewrite IH; [reflexivity|].
  intros b Hb. apply H. now right.
Qed.

Lemma mapM_Forall {A B : Type} (f : A -> option B) (P : B -> Prop)
      (l : list A) (r : list B) :
  (forall a b, f a = Some b -> P b) -> mapM f l = Some r -> Forall P r.
Proof.
  intros Hf. revert r. induction l as [|a l IH]; intros r H; simpl in H.
  - injection H as <-. constructor.
  - obind_inv H. obind_inv H. injection H as <-.
    constructor; [now apply (Hf a) | now apply IH].
Qed.

(** The length of a broadcast sum depends on the lengths alone. *)
Lemma add_length (u v y : vector) :
  add u v = Some y ->
  length y = if (length u =? length v)%nat then length u
             else if (length u =? 1)%nat then length v else length u.
Proof.
  unfold add, broadcast.
  destruct (Nat.eqb_spec (length u) (length v)) as [E|E].
  - intros [= <-]. rewrite zip_with_length. lia.
  - destruct u as [|a [|a' u]]; destruct v as [|b [|b' v]];
      try discriminate; try (simpl in E; lia);
      intros [= <-]; simpl; rewrite ?length_map; reflexivity.
Qed.

Lemma add_rows_relu_fusion {A : Type} (f : A -> vector) (b : vector)
      (l : list A) :
  (s <- add_rows (map f l) b ;; Some (map ReLU s))
  = mapM (fun i => s <- add (f i) b ;; Some (ReLU s)) l.
Proof.
  unfold add_rows. induction l as [|a l IH]; [reflexivity|].
  simpl. destruct (add (f a) b) as [y|]; [|reflexivity]. simpl.
  rewrite <- IH. destruct (mapM (fun r => add r b) (map f l)); reflexivity.
Qed.

Lemma stack_Some (c : nat) (rows : list vector) :
  rows <> [] -> Forall (fun r => length r = c) rows ->
  stack rows = Some rows.
Proof.
  intros Hne H. destruct rows as [|r t]; [congruence|]. simpl.
  inversion H as [|? ? Hr Ht]; subst.
  replace (forallb (fun r' => (length r' =? length r)%nat) t) with true;
    [reflexivity|].
  symmetry. apply forallb_forall. intros r' Hr'.
  rewrite Forall_forall in Ht. apply Nat.eqb_eq. now apply Ht.
Qed.

(** X17. On a batch [X] with at least one row the batched layer,
    [ReLU(np.dot(X, w.T) + b)], returns what stacking [relu_layer] over
    the rows of [X] returns, and raises when that raises; its second
    argument plays no part. *)
Theorem batch_version_is_stacked (X : matrix) (p : layer) (x : matrix) :
  (0 < nrows X)%nat ->
  batch_version_relu_layer X p x = stacked_relu_layer X p.
Proof.
  intros HB. destruct p as [w b].
  unfold batch_version_relu_layer, stacked_relu_layer, dot_T. simpl fst.
  simpl snd.
  destruct (Nat.eqb_spec (ncols X) (ncols w)) as [E|E].
  - simpl obind.
    set (f := fun i => map (fun j => inner (row X i) (row w j))
                           (seq 0 (nrows w))).
    change (map (fun i => map (fun j => inner (row X i) (row w j))
                              (seq 0 (nrows w))) (seq 0 (nrows X)))
      with (map f (seq 0 (nrows X))).
    rewrite add_rows_relu_fusion.
    assert (Ef : mapM (fun i => relu_layer (w, b) (row X i))
                      (seq 0 (nrows X))
                 = mapM (fun i => s <- add (f i) b ;; Some (ReLU s))
                        (seq 0 (nrows X))).
    { apply mapM_ext_in. intros i _. unfold relu_layer, dot. simpl fst.
      simpl snd. rewrite row_length, <- E, Nat.eqb_refl. simpl obind.
      subst f. cbv beta.
      rewrite (map_ext (fun j => inner (row w j) (row X i))
                       (fun j => inner (row X i) (row w j)))
        by (intros j; apply inner_comm).
      reflexivity. }
    rewrite Ef.
    destruct (mapM (fun i => s <- add (f i) b ;; Some (ReLU s))
                   (seq 0 (nrows X))) as [rows|] eqn:Em; [|reflexivity].
    simpl obind. symmetry.
    apply (stack_Some
             (if (nrows w =? length b)%nat then nrows w
              else if (nrows w =? 1)%nat then length b else nrows w)).
    + destruct (mapM_Some_inv _ _ _ Em) as (L & _).
      rewrite length_seq in L. intros ->. simpl in L. lia.
    + eapply mapM_Forall; [|exact Em]. intros i y Hy. cbv beta in Hy.
      obind_inv Hy. injection Hy as <-. unfold ReLU. rewrite length_map.
      apply add_length in E0. rewrite E0. subst f. cbv beta.
      now rewrite length_map, length_seq.
  - simpl obind. destruct (nrows X) as [|n]; [lia|].
    simpl seq. simpl mapM. unfold relu_layer at 1, dot. simpl fst.
    rewrite row_length.
    destruct (Nat.eqb_spec (ncols w) (ncols X)) as [E'|E'];
      [congruence | reflexivity].
Qed.

Lemma batch_version_is_stacked_witness :
  batch_version_relu_layer
    (Matrix 2 2 (fun i j => INR (i + j)))
    (Matrix 3 2 (fun _ _ => 1), [0; 0; 0])
    (Matrix 0 0 (fun _ _ => 0))
  = stacked_relu_layer
      (Matrix 2 2 (fun i j => INR (i + j)))
      (Matrix 3 2 (fun _ _ => 1), [0; 0; 0]).
Proof.
  apply batch_version_is_stacked. simpl. lia.
Defined.

(** ** Further properties of the loss *)













(** ** Further properties of [accuracy] *)

Lemma bind_inv {A B : Type} (m : M A) (f : A -> M B) (st : state)
      (r : B * state) :
  bind m f st = Some r ->
  exists a st1, m st = Some (a, st1) /\ f a st1 = Some r.
Proof.
  unfold bind. destruct (m st) as [[a st1]|]; [eauto | discriminate].
Qed.

Lemma lift_inv {A : Type} (o : option A) (st st' : state) (a : A) :
  lift o st = Some (a, st') -> o = Some a /\ st' = st.
Proof.
  unfold lift. destruct o; [|discriminate]. intros [= -> ->]. auto.
Qed.

Lemma chunks_fuel_concat_length {A : Type} (fuel n : nat) (l : list A) :
  (length (concat (chunks_fuel fuel n l)) <= length l)%nat.
Proof.
  revert l. induction fuel as [|fuel IH]; intros l; [simpl; lia|].
  destruct l as [|a l]; [simpl; lia|].
  change (chunks_fuel (S fuel) n (a :: l))
    with (firstn n (a :: l) :: chunks_fuel fuel n (skipn n (a :: l))).
  cbn [concat]. rewrite length_app.
  specialize (IH (skipn n (a :: l))).
  rewrite <- (firstn_skipn n (a :: l)) at 3. rewrite length_app. lia.
Qed.

Lemma count_eq_le (u v : list nat) : (count_eq u v <= length v)%nat.
Proof.
  unfold count_eq.
  etransitivity; [apply filter_length_le|]. rewrite length_combine. lia.
Qed.

Lemma accuracy_batch_le (ps : params) (acc acc' : nat) (b : batch) :
  accuracy_batch ps acc b = Some acc' -> (acc' <= acc + length b)%nat.
Proof.
  unfold accuracy_batch. intros H.
  obind_inv H. obind_inv H. obind_inv H. obind_inv H. injection H as <-.
  apply mapM_Some_inv in E0. destruct E0 as (L & _).
  destruct (one_hot_length (target b) num_classes) as (L' & _).
  pose proof (count_eq_le a2 a0) as Hc.
  unfold argmax_axis1 in *. rewrite L, L' in Hc.
  unfold target in Hc. rewrite length_map in Hc.
  apply Nat.add_le_mono_l. exact Hc.
Qed.

Lemma foldM_accuracy_le (ps : params) (bs : list batch) :
  forall acc st r st',
    foldM (fun acc b => lift (accuracy_batch ps acc b)) bs acc st
    = Some (r, st') ->
    (r <= acc + length (concat bs))%nat.
Proof.
  induction bs as [|b bs IH]; intros acc st r st' H; simpl in H.
  - unfold ret in H. injection H as <- _. lia.
  - apply bind_inv in H. destruct H as (acc1 & st1 & E & H).
    apply lift_inv in E. destruct E as (E & ->).
    apply accuracy_batch_le in E. apply IH in H.
    cbn [concat]. rewrite length_app. lia.
Qed.

(** Whatever [accuracy] returns lies between 0 and 1. *)
Lemma accuracy_range (ps : params) (dl : DataLoader) (st st' : state)
      (a : R) :
  accuracy ps dl st = Some (a, st') -> 0 <= a <= 1.
Proof.
  intros H. destruct (iter_spec dl st) as (order & w' & E & Hp).
  unfold accuracy in H. rewrite (bind_Some _ _ _ _ _ E) in H.
  apply bind_inv in H. destruct H as (acc & s1 & Ef & H).
  apply foldM_accuracy_le in Ef.
  assert (Hle : (acc <= length (dataset dl))%nat).
  { etransitivity; [exact Ef|]. simpl.
    etransitivity; [apply chunks_fuel_concat_length|].
    apply Nat.eq_le_incl. apply Permutation_length.
    now apply select_perm. }
  destruct (length (dataset dl)) as [|n] eqn:En.
  - unfold lift in H. discriminate.
  - unfold ret in H. injection H as <- _.
    assert (Hn : 0 < INR (S n)) by (apply lt_0_INR; lia).
    assert (Ha : 0 <= INR acc) by apply pos_INR.
    assert (Hb : INR acc <= INR (S n)) by now apply le_INR.
    split.
    + apply Rmult_le_pos; [exact Ha | left; now apply Rinv_0_lt_compat].
    + apply Rmult_le_reg_r with (INR (S n)); [exact Hn|].
      unfold Rdiv. rewrite Rmult_assoc, Rinv_l by lra. lra.
Qed.

(** X19. Whenever [accuracy] returns, its value lies between 0 and 1. *)
Theorem accuracy_between_0_and_1 (ps : params) (dl : DataLoader)
        (st st' : state) (a : R) :
  accuracy ps dl st = Some (a, st') -> 0 <= a <= 1.
Proof. apply accuracy_range. Qed.

Lemma select_nil {A : Type} (order : list nat) : select (@nil A) order = [].
Proof.
  unfold select. induction order as [|i order IH]; [reflexivity|].
  simpl. destruct i; exact IH.
Qed.

(** X20. On a loader over an empty dataset [accuracy] raises: no batch
    is visited and the final division is by zero. *)
Theorem accuracy_empty_dataset (ps : params) (dl : DataLoader) (st : state) :
  dataset dl = [] -> accuracy ps dl st = None.
Proof.
  intros Hd. unfold accuracy, iter. rewrite Hd.
  unfold bind. destruct (shuffle dl).
  - unfold with_world. simpl length.
    destruct (randperm 0 (world st)) as [order w'].
    rewrite select_nil. reflexivity.
  - reflexivity.
Qed.

Lemma foldM_lift_None {A B : Type} (g : B -> A -> option B) (l : list A)
      (a : A) :
  In a l -> (forall b, g b a = None) ->
  forall b st, foldM (fun b a => lift (g b a)) l b st = None.
Proof.
  intros Hin Hg. induction l as [|x l IH]; [contradiction|].
  intros b st. simpl. unfold bind.
  destruct Hin as [-> | Hin].
  - unfold lift at 1. now rewrite Hg.
  - destruct (lift (g b x) st) as [[b' st']|]; [|reflexivity]. now apply IH.
Qed.

Lemma reshape_None (d : list image) (im : image) :
  In im d -> length im <> (28 * 28)%nat -> reshape d = None.
Proof.
  intros Hin Hl. unfold reshape.
  destruct (forallb (fun im => (length im =? 28 * 28)%nat) d) eqn:E;
    [|reflexivity].
  rewrite forallb_forall in E. specialize (E im Hin).
  apply Nat.eqb_eq in E. contradiction.
Qed.

(** X21. When one image of the dataset does not have [28 * 28] pixels,
    [accuracy] raises, wherever the sampler puts that image. *)
Theorem accuracy_ill_sized_image (ps : params) (dl : DataLoader)
        (st : state) (e : example) :
  (0 < batch_size dl)%nat -> In e (dataset dl) ->
  length (fst e) <> (28 * 28)%nat ->
  accuracy ps dl st = None.
Proof.
  intros Hb Hin Hl. destruct (iter_spec dl st) as (order & w' & E & Hp).
  unfold accuracy. rewrite (bind_Some _ _ _ _ _ E).
  assert (Hsel : In e (select (dataset dl) order)).
  { eapply Permutation_in; [symmetry; apply select_perm; exact Hp|].
    exact Hin. }
  rewrite <- (chunks_concat (batch_size dl) _ Hb) in Hsel.
  apply in_concat in Hsel. destruct Hsel as (b & Hbin & Heb).
  unfold bind.
  rewrite (foldM_lift_None (accuracy_batch ps) _ b Hbin); [reflexivity|].
  intros acc. unfold accuracy_batch.
  rewrite (reshape_None (data b) (fst e)); [reflexivity | | exact Hl].
  unfold data. now apply in_map.
Qed.

(** ** Further properties of the training loop *)

Lemma chunks_nonempty {A : Type} (n : nat) (l : list A) :
  l <> [] -> chunks n l <> [].
Proof. destruct l; [congruence|]. intros _. discriminate. Qed.

(** X22. With a [net_type] other than ["MLP"] and ["CNN"] the loop
    raises as soon as there is an epoch to run and a batch to train
    on: the input [x] of the first training step is unbound. *)
Theorem training_loop_unknown_net_type (num_epochs : nat)
        (opt_state : opt_state_t) (net_type : string) (st : state) :
  net_type <> "MLP"%string -> net_type <> "CNN"%string ->
  (0 < num_epochs)%nat -> dataset train_loader <> [] ->
  run_mnist_training_loop num_epochs opt_state net_type st = None.
Proof.
  intros Hm Hc Hn Hd. unfold run_mnist_training_loop, bind.
  destruct (accuracy (get_params opt_state) train_loader st)
    as [[a0 s1]|]; [|reflexivity].
  destruct (accuracy (get_params opt_state) test_loader s1)
    as [[b0 s2]|]; [|reflexivity].
  destruct num_epochs as [|n]; [lia|]. cbn [seq foldM].
  set (l0 := Loop (get_params opt_state) opt_state [] [a0] [b0]).
  assert (E : run_epoch net_type l0 0 s2 = None).
  { unfold run_epoch.
    destruct (with_world_spec time_time s2) as (t0 & w0 & E0).
    rewrite (bind_Some _ _ _ _ _ E0).
    destruct (iter_spec train_loader (State w0 (stdout s2)))
      as (order & w1 & E1 & Hp).
    rewrite (bind_Some _ _ _ _ _ E1).
    destruct (chunks (batch_size train_loader)
                     (select (dataset train_loader) order))
      as [|b bs] eqn:Eb.
    - exfalso. apply (chunks_nonempty (batch_size train_loader)
                        (select (dataset train_loader) order));
        [|exact Eb].
      intros Es. apply Hd.
      apply Permutation_nil. rewrite <- Es. now apply select_perm.
    - unfold bind. cbn [foldM]. unfold bind, lift.
      unfold train_step, input_of.
      apply String.eqb_neq in Hm. apply String.eqb_neq in Hc.
      rewrite Hm, Hc. reflexivity. }
  unfold bind. now rewrite E.
Qed.





End Training.

(** ** The samples *)

Lemma sample_randperm_perm (n : nat) (w : unit) :
  Permutation (fst (sample_randperm n w)) (seq 0 n).
Proof. apply Permutation_refl. Qed.

Lemma sample_params_shape :
  sample_params <> []
  /\ shape_chain (28 * 28) sample_params = Some (Z.to_nat 10).
Proof. split; [discriminate | reflexivity]. Qed.

Lemma sample_loader_ok : loader_ok 10 sample_loader.
Proof.
  unfold loader_ok, sample_loader; cbn [batch_size dataset].
  split; [lia|]. split; [discriminate|]. split.
  - repeat constructor; unfold image_ok; cbn [fst]; apply repeat_length.
  - repeat constructor; unfold label_ok; cbn [snd]; lia.
Qed.

Lemma sample_good_update (i : Z) (g : unit) (s : params) :
  sample_good s -> sample_good (sample_opt_update i g s).
Proof. intros H. exact H. Qed.

Lemma sample_good_params (s : params) :
  sample_good s ->
  sample_get_params s <> []
  /\ shape_chain (28 * 28) (sample_get_params s) = Some (Z.to_nat 10).
Proof. intros ->. exact sample_params_shape. Qed.

(** The accuracy of the sample network on the sample loader. *)
Lemma accuracy_is_fraction_correct_witness :
  exists st',
    accuracy unit sample_randperm 10 sample_params sample_loader
             (State unit tt [])
    = Some (INR (count_correct sample_params (dataset sample_loader))
            / INR (length (dataset sample_loader)), st').
Proof.
  destruct (accuracy_is_fraction_correct unit sample_randperm 10
              sample_randperm_perm sample_params 10 sample_loader
              (State unit tt [])
              (proj1 sample_params_shape) (proj2 sample_params_shape)
              (Nat.lt_0_succ 9) sample_loader_ok)
    as (st' & E & _).
  exists st'. exact E.
Defined.





Lemma accuracy_logs_length_witness :
  exists tl la lt st',
    run_mnist_training_loop unit sample_randperm sample_time sample_fmt
      sample_fmt unit params sample_opt_update sample_get_params
      sample_grad sample_forward_unflattened 10 sample_loader sample_loader
      3 sample_params "MLP" (State unit tt [])
    = Some ((tl, la, lt), st')
    /\ length la = 4%nat /\ length lt = 4%nat.
Proof.
  destruct (accuracy_logs_length unit sample_randperm sample_time sample_fmt
              sample_fmt unit params sample_opt_update sample_get_params
              sample_grad sample_forward_unflattened 10 sample_loader
              sample_loader sample_good sample_randperm_perm
              sample_good_update sample_good_params sample_loader_ok
              sample_loader_ok 3 sample_params (State unit tt []) eq_refl)
    as (tl & la & lt & st' & E & La & Lt & _).
  exists tl, la, lt, st'. repeat split; assumption.
Defined.

(** *** The sample network at work *)

Lemma inner_zero_row (s : list nat) (x : vector) :
  inner (map (fun _ : nat => 0) s) x = 0.
Proof.
  revert x. induction s as [|i s IH]; intros [|a x]; simpl; try reflexivity.
  rewrite IH. ring.
Qed.

(** All logits of the sample network are zero, so that it predicts the
    first class, 0, for every image. *)
Lemma sample_predicted_class (x : vector) :
  length x = (28 * 28)%nat -> predicted_class sample_params x = Some 0%nat.
Proof.
  intros Hx. unfold predicted_class, forward_pass, sample_params.
  cbn [removelast hidden_layers last_layer obind fst snd].
  unfold dot, row. cbn [ncols nrows coef]. rewrite Hx, Nat.eqb_refl.
  cbn [obind].
  rewrite (map_ext _ (fun _ : nat => 0))
    by (intros i; apply inner_zero_row).
  cbn [seq map repeat]. unfold add, broadcast.
  cbn [length Nat.eqb zip_with obind].
  rewrite argmax_shift. cbn [argmax argmax_from].
  repeat (destruct (Rlt_dec _ _); [lra|]). reflexivity.
Qed.

(** Of the two examples of the sample loader the one labelled 0 is
    predicted correctly: the accuracy is one half. *)
Lemma sample_accuracy_half :
  exists st',
    accuracy unit sample_randperm 10 sample_params sample_loader
             (State unit tt [])
    = Some (1 / 2, st').
Proof.
  destruct (accuracy_value unit sample_randperm 10 sample_randperm_perm
              sample_params 10 sample_loader (State unit tt [])
              (proj1 sample_params_shape) (proj2 sample_params_shape)
              (Nat.lt_0_succ 9) sample_loader_ok) as (w' & E).
  eexists. rewrite E. do 2 f_equal.
  unfold fraction_correct, count_correct, sample_loader, correct.
  cbn [dataset filter fst snd].
  rewrite !sample_predicted_class by apply repeat_length.
  simpl. lra.
Qed.

(** The status line of epoch 12. *)
Lemma sample_status_line (t a b : R) :
  status_line sample_fmt sample_fmt 12 t a b
  = "Epoch 12 | T:  | Train A:  | Test A: "%string.
Proof. reflexivity. Qed.

(** *** The samples for the further properties *)


Lemma accuracy_between_0_and_1_witness :
  exists a st',
    accuracy unit sample_randperm 10 sample_params sample_loader
             (State unit tt [])
    = Some (a, st')
    /\ 0 <= a <= 1.
Proof.
  destruct (accuracy_value unit sample_randperm 10 sample_randperm_perm
              sample_params 10 sample_loader (State unit tt [])
              (proj1 sample_params_shape) (proj2 sample_params_shape)
              (Nat.lt_0_succ 9) sample_loader_ok) as (w' & E).
  eexists _, _. split; [exact E|].
  exact (accuracy_between_0_and_1 unit sample_randperm 10
           sample_randperm_perm sample_params sample_loader _ _ _ E).
Defined.

Lemma accuracy_empty_dataset_witness :
  accuracy unit sample_randperm 10 sample_params empty_loader
           (State unit tt [])
  = None.
Proof.
  apply (accuracy_empty_dataset unit sample_randperm 10 sample_params
           empty_loader (State unit tt [])).
  reflexivity.
Defined.

Lemma accuracy_ill_sized_image_witness :
  accuracy unit sample_randperm 10 sample_params tiny_image_loader
           (State unit tt [])
  = None.
Proof.
  apply (accuracy_ill_sized_image unit sample_randperm 10
           sample_randperm_perm sample_params tiny_image_loader
           (State unit tt []) ([1; 2], 0%Z)).
  - simpl. lia.
  - simpl. auto.
  - simpl. lia.
Defined.

Lemma training_loop_unknown_net_type_witness :
  run_mnist_training_loop unit sample_randperm sample_time sample_fmt
    sample_fmt unit params sample_opt_update sample_get_params
    sample_grad sample_forward_unflattened 10 sample_loader sample_loader
    1 sample_params "RNN" (State unit tt [])
  = None.
Proof.
  apply (training_loop_unknown_net_type unit sample_randperm sample_time
           sample_fmt sample_fmt unit params sample_opt_update
           sample_get_params sample_grad sample_forward_unflattened 10
           sample_loader sample_loader sample_randperm_perm).
  - discriminate.
  - discriminate.
  - lia.
  - discriminate.
Defined.


End MLP.
